(** * The parachain writer of the relayer (relayer/chain/parachain/writer.go)

    A shallow embedding of [Writer]: its start-up, the write loop with its
    dispatch on the status of a commitment, the two submissions to the
    light client bridge contract and the drain on shutdown.

    How the Go program is read:
    - an [error] is the message it carries; [(T, error)] results are a sum;
    - the types and functions of the imported packages (go-ethereum, the
      contract binding, the commitment builder of relayer/parachain, the
      ethereum connection) are the fields of two classes, [Foreign] and
      [Bindings]; a call of the contract runs against an explicit [World];
    - what the writer does to the outside (log lines, contract calls, sends
      on the [beefy] channel) is collected, in program order, as a list of
      [Event];
    - the inbound channel [messages] is the queue of batches the producer
      delivers during the run and whether the producer closes it afterwards;
    - the [select] of the write loop is resolved by a schedule: the list of
      the cases that fire, one per iteration;
    - a send on [beefy] is taken to complete (its receiver is not part of
      this file), and the registry handed to [NewWriter] to be allocated. *)

From stdpp Require Import gmap strings list.

Open Scope string_scope.
Open Scope list_scope.

(** ** Values of the imported packages *)

Definition Error := string.

Inductive Result (A : Type) : Type :=
| Ok (a : A)
| Fail (err : Error).
Arguments Ok {A} a.
Arguments Fail {A} err.

(** The type declarations the writer uses and does not own. *)
Class Foreign := {
  Commitment : Type;       (* what a BeefyCommitmentInfo carries besides its status and hash *)
  Hash : Type;             (* common.Hash *)
  Address : Type;          (* common.Address *)
  Transaction : Type;      (* types.Transaction *)
  PrivateKey : Type;       (* ecdsa.PrivateKey *)
  Client : Type;           (* ethclient.Client *)
  Connection : Type;       (* ethereum.Connection *)
  Contract : Type;         (* lightclientbridge.Contract *)
  NewSignatureCommitmentMessage : Type;
  CompleteSignatureCommitmentMessage : Type;
  World : Type;            (* the destination chain as the contract calls see it *)
}.

(** Modelled from the spec: the status enumeration of relayer/parachain, whose
    declaration is not among the sources. The four constants the writer names
    keep their names; [Completed] is the fifth state of the spec's data model,
    and [UnknownStatus] stands for any other value of the underlying integer. *)
Inductive CommitmentStatus : Type :=
| CommitmentWitnessed
| InitialVerificationTxSent
| InitialVerificationTxConfirmed
| ReadyToComplete
| Completed
| UnknownStatus (code : nat).

(** The position of a status in the lifecycle; unknown values have none. *)
Definition status_rank (s : CommitmentStatus) : option nat :=
  match s with
  | CommitmentWitnessed => Some 0
  | InitialVerificationTxSent => Some 1
  | InitialVerificationTxConfirmed => Some 2
  | ReadyToComplete => Some 3
  | Completed => Some 4
  | UnknownStatus _ => None
  end.

Definition status_advances (old new : CommitmentStatus) : Prop :=
  match status_rank old, status_rank new with
  | Some m, Some n => m < n
  | _, _ => False
  end.

(** context.Context, as far as the writer looks at it: the error [Err()]
    reports once [Done()] is closed. *)
Record Ctx := { Err : Error }.

Inductive SelectCase : Type :=
| CaseCtxDone       (* case <-ctx.Done() *)
| CaseMessages.     (* case msgs := <-wr.messages *)

Section Data.
Context {F : Foreign}.

(** Modelled from the spec: parachain.BeefyCommitmentInfo, declared outside
    the sources: a status, the opaque payload, and the hash of the initial
    verification transaction. *)
Record BeefyCommitmentInfo := {
  Payload : Commitment;
  Status : CommitmentStatus;
  InitialVerificationTxHash : Hash;
}.

(** chain.Message is an empty interface: a value is a BeefyCommitmentInfo
    or a value of some other dynamic type, named by [type_name]. *)
Inductive Message : Type :=
| MsgBeefy (beefyInfo : BeefyCommitmentInfo)
| MsgOther (type_name : string).

(** bind.TransactOpts, the four fields the writer sets. *)
Record TransactOpts := {
  From : Address;
  Signer : Address -> Transaction -> Result Transaction;
  Context : Ctx;
  GasLimit : Z;
}.

(** wr.config.Ethereum.Contracts.RelayBridgeLightClient is the one setting read. *)
Record Config := { RelayBridgeLightClient : string }.

(** The writer. Its channels and its logger are part of the run
    ([State], [Event]); the registry is an allocated map. *)
Record Writer := {
  config : Config;
  conn : Connection;
  contracts : gmap string Contract;
}.

(** The inbound channel. *)
Record Chan := {
  queue : list (list Message);
  closed : bool;
}.

Record State := {
  world : World;
  messages : Chan;
}.

Inductive Event : Type :=
| LogInfo (text : string)
| LogDebug (text : string)
| LogError (text : string) (err : Error)
| LogInfoTx (text : string) (txHash : Hash)
| CallNewSignatureCommitment
    (contract : Contract) (options : TransactOpts) (msg : NewSignatureCommitmentMessage)
| CallCompleteSignatureCommitment
    (contract : Contract) (options : TransactOpts) (msg : CompleteSignatureCommitmentMessage)
| SendBeefy (beefyInfo : BeefyCommitmentInfo).   (* wr.beefy <- beefyInfo *)

(** How a call of [writeLoop] or [onDone] stands: it returned an error, or
    it has not returned (it is still looping, or blocked on a receive). *)
Inductive Outcome : Type :=
| Returned (err : Error)
| Pending.
End Data.

(** The functions of the imported packages. *)
Class Bindings {F : Foreign} := {
  HexToAddress : string -> Address;
  NewContract : Address -> Client -> Result Contract;
  GetClient : Connection -> Client;
  KeyPairCommonAddress : Connection -> Address;     (* conn.GetKeyPair().CommonAddress() *)
  KeyPairPrivateKey : Connection -> PrivateKey;      (* conn.GetKeyPair().PrivateKey() *)
  SignTxHomestead : Transaction -> PrivateKey -> Result Transaction;
  TxHash : Transaction -> Hash;
  BuildNewSignatureCommitmentMessage :
    BeefyCommitmentInfo -> Result NewSignatureCommitmentMessage;
  BuildCompleteSignatureCommitmentMessage :
    BeefyCommitmentInfo -> Result CompleteSignatureCommitmentMessage;
  ContractNewSignatureCommitment :
    Contract -> TransactOpts -> NewSignatureCommitmentMessage ->
    World -> Result Transaction * World;
  ContractCompleteSignatureCommitment :
    Contract -> TransactOpts -> CompleteSignatureCommitmentMessage ->
    World -> Result Transaction * World;
}.

(** ** The writer *)

Definition LightClientBridgeContractID : string := "lightclientbridge".

Section WriterModel.
Context {F : Foreign} {Ops : Bindings}.

(** A computation of the writer: from a state to a value, the next state
    and the events it caused. *)
Definition M (A : Type) : Type := State -> A * State * list Event.

Definition ret {A} (a : A) : M A := fun s => (a, s, []).

Definition bind {A B} (m : M A) (f : A -> M B) : M B :=
  fun s =>
    let '(a, s1, t1) := m s in
    let '(b, s2, t2) := f a s1 in
    (b, s2, t1 ++ t2).

Definition emit (e : Event) : M unit := fun s => (tt, s, [e]).

(** A contract call: it runs against the world. *)
Definition call {A} (f : World -> Result A * World) : M (Result A) :=
  fun s =>
    let '(r, w) := f (world s) in
    (r, {| world := w; messages := messages s |}, []).
End WriterModel.

Notation "x <- m ;; k" := (bind m (fun x => k))
  (at level 100, m at next level, right associativity, only parsing).
Notation "m ;;; k" := (bind m (fun _ => k))
  (at level 100, right associativity, only parsing).

Section WriterCode.
Context {F : Foreign} {Ops : Bindings}.

Definition NewWriter (config : Config) (conn : Connection)
    (contracts : gmap string Contract) : Result Writer :=
  Ok {| config := config; conn := conn; contracts := contracts |}.

(** [Start] gives back its error, the writer as it leaves it, and whether
    the write loop was handed to the task group ([eg.Go]). *)
Definition Start (wr : Writer) : option Error * Writer * bool :=
  match NewContract (HexToAddress (RelayBridgeLightClient (config wr)))
                    (GetClient (conn wr)) with
  | Fail err => (Some err, wr, false)
  | Ok contract =>
      (None,
       {| config := config wr; conn := conn wr;
          contracts := <[LightClientBridgeContractID := contract]> (contracts wr) |},
       true)
  end.

Definition signerFn (wr : Writer) (_ : Address) (tx : Transaction) : Result Transaction :=
  match SignTxHomestead tx (KeyPairPrivateKey (conn wr)) with
  | Fail err => Fail err
  | Ok signedTx => Ok signedTx
  end.

Definition transactOpts (wr : Writer) (ctx : Ctx) : TransactOpts :=
  {| From := KeyPairCommonAddress (conn wr);
     Signer := signerFn wr;
     Context := ctx;
     GasLimit := 5000000 |}.

(** The two calls of the contract binding; the message stands for the
    fields of it that the writer passes on. *)
Definition contract_NewSignatureCommitment (contract : Contract)
    (options : TransactOpts) (msg : NewSignatureCommitmentMessage) : M (Result Transaction) :=
  emit (CallNewSignatureCommitment contract options msg) ;;;
  call (ContractNewSignatureCommitment contract options msg).

Definition contract_CompleteSignatureCommitment (contract : Contract)
    (options : TransactOpts) (msg : CompleteSignatureCommitmentMessage) : M (Result Transaction) :=
  emit (CallCompleteSignatureCommitment contract options msg) ;;;
  call (ContractCompleteSignatureCommitment contract options msg).

(** The record [WriteNewSignatureCommitment] sends on [wr.beefy]: its own copy
    of [beefyInfo] with the two fields it assigns. *)
Definition markSent (beefyInfo : BeefyCommitmentInfo) (tx : Transaction) : BeefyCommitmentInfo :=
  {| Payload := Payload beefyInfo;
     Status := InitialVerificationTxSent;
     InitialVerificationTxHash := TxHash tx |}.

Definition WriteNewSignatureCommitment (wr : Writer) (ctx : Ctx)
    (beefyInfo : BeefyCommitmentInfo) : M (option Error) :=
  emit (LogInfo "Parachain writer received msg") ;;;
  match BuildNewSignatureCommitmentMessage beefyInfo with
  | Fail err => ret (Some err)
  | Ok msg =>
      match contracts wr !! LightClientBridgeContractID with
      | None => ret (Some "Unknown contract")
      | Some contract =>
          r <- contract_NewSignatureCommitment contract (transactOpts wr ctx) msg ;;
          match r with
          | Fail err =>
              emit (LogError "Failed to submit transaction" err) ;;;
              ret (Some err)
          | Ok tx =>
              emit (LogInfoTx "New Signature Commitment transaction submitted" (TxHash tx)) ;;;
              emit (SendBeefy (markSent beefyInfo tx)) ;;;
              ret None
          end
      end
  end.

Definition WriteCompleteSignatureCommitment (wr : Writer) (ctx : Ctx)
    (beefyInfo : BeefyCommitmentInfo) : M (option Error) :=
  emit (LogInfo "Parachain writer received msg") ;;;
  match BuildCompleteSignatureCommitmentMessage beefyInfo with
  | Fail err => ret (Some err)
  | Ok msg =>
      match contracts wr !! LightClientBridgeContractID with
      | None => ret (Some "Unknown contract")
      | Some contract =>
          r <- contract_CompleteSignatureCommitment contract (transactOpts wr ctx) msg ;;
          match r with
          | Fail err =>
              emit (LogError "Failed to submit transaction" err) ;;;
              ret (Some err)
          | Ok tx =>
              emit (LogInfoTx "Complete Signature Commitment transaction submitted" (TxHash tx)) ;;;
              ret None
          end
      end
  end.

(** The [switch] on [beefyInfo.Status] in the body of the range loop. *)
Definition dispatch (wr : Writer) (ctx : Ctx) (beefyInfo : BeefyCommitmentInfo) : M unit :=
  match Status beefyInfo with
  | CommitmentWitnessed =>
      err <- WriteNewSignatureCommitment wr ctx beefyInfo ;;
      match err with
      | Some e => emit (LogError "Error submitting message to ethereum" e)
      | None => ret tt
      end
  | InitialVerificationTxSent | InitialVerificationTxConfirmed =>
      ret tt
  | ReadyToComplete =>
      err <- WriteCompleteSignatureCommitment wr ctx beefyInfo ;;
      match err with
      | Some e => emit (LogError "Error submitting message to ethereum" e)
      | None => ret tt
      end
  | _ => emit (LogInfo "Invalid beefy commitment status")
  end.

(** [for _, msg := range msgs]: [Some err] when the body returned from
    [writeLoop], [None] when the range ran to its end. *)
Fixpoint rangeMsgs (wr : Writer) (ctx : Ctx) (msgs : list Message) : M (option Error) :=
  match msgs with
  | [] => ret None
  | MsgOther _ :: _ => ret (Some "Invalid message")
  | MsgBeefy beefyInfo :: rest =>
      dispatch wr ctx beefyInfo ;;;
      rangeMsgs wr ctx rest
  end.

(** The log of [for range wr.messages] over the batches still to come. *)
Fixpoint discardAll (batches : list (list Message)) : list Event :=
  match batches with
  | [] => []
  | _ :: rest => LogDebug "Discarded message" :: discardAll rest
  end.

(** [onDone]: the range ends when the channel is closed; on a channel the
    producer never closes it takes what comes and stays blocked. *)
Definition onDone (wr : Writer) (ctx : Ctx) : M Outcome :=
  emit (LogInfo "Shutting down writer...") ;;;
  fun s =>
    (if closed (messages s) then Returned (Err ctx) else Pending,
     {| world := world s;
        messages := {| queue := []; closed := closed (messages s) |} |},
     discardAll (queue (messages s))).

(** [msgs := <-wr.messages]: the next batch; the zero value (no records) once
    the channel is closed and empty; [None] when the receive is not ready. *)
Definition receive : M (option (list Message)) :=
  fun s =>
    match queue (messages s) with
    | msgs :: rest =>
        (Some msgs,
         {| world := world s;
            messages := {| queue := rest; closed := closed (messages s) |} |},
         [])
    | [] => (if closed (messages s) then Some [] else None, s, [])
    end.

(** [writeLoop]: one entry of the schedule per [select]. An entry naming a
    receive that is not ready is passed over (the select keeps waiting); when
    the schedule is used up the loop has not returned. *)
Fixpoint writeLoop (wr : Writer) (ctx : Ctx) (schedule : list SelectCase) : M Outcome :=
  match schedule with
  | [] => ret Pending
  | CaseCtxDone :: _ => onDone wr ctx
  | CaseMessages :: schedule' =>
      r <- receive ;;
      match r with
      | None => writeLoop wr ctx schedule'
      | Some msgs =>
          err <- rangeMsgs wr ctx msgs ;;
          match err with
          | Some e => ret (Returned e)
          | None => writeLoop wr ctx schedule'
          end
      end
  end.

(** ** Reading a run *)

Definition result {A} (r : A * State * list Event) : A := r.1.1.
Definition final {A} (r : A * State * list Event) : State := r.1.2.
Definition events {A} (r : A * State * list Event) : list Event := r.2.

(** The records sent on [wr.beefy], in order. *)
Fixpoint sent (t : list Event) : list BeefyCommitmentInfo :=
  match t with
  | [] => []
  | SendBeefy b :: t' => b :: sent t'
  | _ :: t' => sent t'
  end.

Definition is_submission (e : Event) : bool :=
  match e with
  | CallNewSignatureCommitment _ _ _ | CallCompleteSignatureCommitment _ _ _ => true
  | _ => false
  end.

(** The contract calls, in order. *)
Fixpoint submissions (t : list Event) : list Event :=
  match t with
  | [] => []
  | e :: t' => if is_submission e then e :: submissions t' else submissions t'
  end.

Definition is_beefy (m : Message) : Prop :=
  match m with MsgBeefy _ => True | MsgOther _ => False end.

(** The body of the range loop over records that all have the expected type. *)
Fixpoint dispatchAll (wr : Writer) (ctx : Ctx) (bs : list BeefyCommitmentInfo) : M unit :=
  match bs with
  | [] => ret tt
  | b :: bs' => dispatch wr ctx b ;;; dispatchAll wr ctx bs'
  end.

(** The state in which [msgs] is the next batch to be received. *)
Definition pushFront (msgs : list Message) (s : State) : State :=
  {| world := world s;
     messages := {| queue := msgs :: queue (messages s);
                    closed := closed (messages s) |} |}.

(** A run that comes after the events [t]. *)
Definition after {A} (t : list Event) (r : A * State * list Event) : A * State * list Event :=
  (result r, final r, t ++ events r).

(** The ways a submission of the initial transaction fails. *)
Inductive InitialSubmissionFails (wr : Writer) (ctx : Ctx)
    (beefyInfo : BeefyCommitmentInfo) (w : World) : Error -> Prop :=
| InitialBuilderFails err :
    BuildNewSignatureCommitmentMessage beefyInfo = Fail err ->
    InitialSubmissionFails wr ctx beefyInfo w err
| InitialUnknownContract msg :
    BuildNewSignatureCommitmentMessage beefyInfo = Ok msg ->
    contracts wr !! LightClientBridgeContractID = None ->
    InitialSubmissionFails wr ctx beefyInfo w "Unknown contract"
| InitialBindingFails msg contract err w' :
    BuildNewSignatureCommitmentMessage beefyInfo = Ok msg ->
    contracts wr !! LightClientBridgeContractID = Some contract ->
    ContractNewSignatureCommitment contract (transactOpts wr ctx) msg w = (Fail err, w') ->
    InitialSubmissionFails wr ctx beefyInfo w err.

(** The ways a submission of the completing transaction fails. *)
Inductive CompleteSubmissionFails (wr : Writer) (ctx : Ctx)
    (beefyInfo : BeefyCommitmentInfo) (w : World) : Error -> Prop :=
| CompleteBuilderFails err :
    BuildCompleteSignatureCommitmentMessage beefyInfo = Fail err ->
    CompleteSubmissionFails wr ctx beefyInfo w err
| CompleteUnknownContract msg :
    BuildCompleteSignatureCommitmentMessage beefyInfo = Ok msg ->
    contracts wr !! LightClientBridgeContractID = None ->
    CompleteSubmissionFails wr ctx beefyInfo w "Unknown contract"
| CompleteBindingFails msg contract err w' :
    BuildCompleteSignatureCommitmentMessage beefyInfo = Ok msg ->
    contracts wr !! LightClientBridgeContractID = Some contract ->
    ContractCompleteSignatureCommitment contract (transactOpts wr ctx) msg w = (Fail err, w') ->
    CompleteSubmissionFails wr ctx beefyInfo w err.

(** What may stand behind an event of a run over the records [inbox]: a
    record sent on [wr.beefy] is a witnessed record of the inbox moved to
    [InitialVerificationTxSent]; a contract call carries the message built
    from a record of the inbox in the status the call belongs to. *)
Definition justified (inbox : list Message) (e : Event) : Prop :=
  match e with
  | SendBeefy b' =>
      exists b, MsgBeefy b ∈ inbox /\ Status b = CommitmentWitnessed /\
                Status b' = InitialVerificationTxSent /\
                Payload b' = Payload b /\
                status_advances (Status b) (Status b')
  | CallNewSignatureCommitment _ _ msg =>
      exists b, MsgBeefy b ∈ inbox /\ Status b = CommitmentWitnessed /\
                BuildNewSignatureCommitmentMessage b = Ok msg
  | CallCompleteSignatureCommitment _ _ msg =>
      exists b, MsgBeefy b ∈ inbox /\ Status b = ReadyToComplete /\
                BuildCompleteSignatureCommitmentMessage b = Ok msg
  | _ => True
  end.

(** The statuses the [switch] has a case for. *)
Definition recognized (st : CommitmentStatus) : bool :=
  match st with
  | CommitmentWitnessed | InitialVerificationTxSent
  | InitialVerificationTxConfirmed | ReadyToComplete => true
  | _ => false
  end.
(** A contract call as the writer is set up to make it: on the binding the
    registry holds under the fixed identifier, with the options of
    [transactOpts]. *)
Definition call_as_configured (wr : Writer) (ctx : Ctx) (e : Event) : Prop :=
  match e with
  | CallNewSignatureCommitment c o _ | CallCompleteSignatureCommitment c o _ =>
      contracts wr !! LightClientBridgeContractID = Some c /\ o = transactOpts wr ctx
  | _ => True
  end.

(** The payloads of the witnessed records among [msgs], in order. *)
Fixpoint witnessedPayloads (msgs : list Message) : list Commitment :=
  match msgs with
  | [] => []
  | MsgBeefy b :: rest =>
      match Status b with
      | CommitmentWitnessed => Payload b :: witnessedPayloads rest
      | _ => witnessedPayloads rest
      end
  | MsgOther _ :: rest => witnessedPayloads rest
  end.
End WriterCode.

(** ** A small chain to run the writer on

    Payloads, hashes, transactions and contracts are numbers. The builder
    refuses the payload 0; the contract reverts on a payload of 100 or more
    and otherwise accepts the transaction, whose number is the count of
    transactions accepted before it. *)
Module Demo.

#[export] Instance foreign : Foreign := {|
  Commitment := nat; Hash := nat; Address := nat; Transaction := nat;
  PrivateKey := nat; Client := unit; Connection := nat; Contract := nat;
  NewSignatureCommitmentMessage := nat;
  CompleteSignatureCommitmentMessage := nat;
  World := nat |}.

Definition build (b : BeefyCommitmentInfo) : Result nat :=
  match Payload b with
  | O => Fail "empty commitment"
  | S _ => Ok (Payload b)
  end.

Definition transact (msg : nat) (w : nat) : Result nat * nat :=
  if Nat.ltb msg 100 then (Ok w, S w) else (Fail "execution reverted", w).

#[export] Instance bindings : Bindings := {|
  HexToAddress := String.length;
  NewContract := fun addr _ =>
    match addr with
    | O => Fail "no contract code at given address"
    | S _ => Ok addr
    end;
  GetClient := fun _ => tt;
  KeyPairCommonAddress := fun c => c;
  KeyPairPrivateKey := fun c => c;
  SignTxHomestead := fun tx _ => Ok tx;
  TxHash := fun tx => 1000 + tx;
  BuildNewSignatureCommitmentMessage := build;
  BuildCompleteSignatureCommitmentMessage := build;
  ContractNewSignatureCommitment := fun _ _ => transact;
  ContractCompleteSignatureCommitment := fun _ _ => transact |}.

Definition ctx : Ctx := {| Err := "context canceled" |}.

Definition record (st : CommitmentStatus) (p : nat) : BeefyCommitmentInfo :=
  {| Payload := p; Status := st; InitialVerificationTxHash := 0 |}.

(** A writer before [Start] (empty registry) and after it. *)
Definition fresh : Writer :=
  {| config := {| RelayBridgeLightClient := "0xC0ffee" |}; conn := 7; contracts := ∅ |}.

Definition started : Writer :=
  {| config := config fresh; conn := 7;
     contracts := {[ LightClientBridgeContractID := 8 ]} |}.

Definition unconfigured : Writer :=
  {| config := {| RelayBridgeLightClient := "" |}; conn := 7; contracts := ∅ |}.

Definition state (batches : list (list Message)) (is_closed : bool) : State :=
  {| world := 0; messages := {| queue := batches; closed := is_closed |} |}.

End Demo.


(** ** Properties *)

Section WriterFacts.
Context {F : Foreign} {Ops : Bindings}.
Implicit Types (wr : Writer) (ctx : Ctx) (s : State) (b : BeefyCommitmentInfo).

Ltac unfold_writer :=
  unfold dispatch, WriteNewSignatureCommitment, WriteCompleteSignatureCommitment,
    contract_NewSignatureCommitment, contract_CompleteSignatureCommitment,
    bind, emit, ret, call.

(** [dispatch] reads and writes the world only: the channel is left alone
    and has no say in what happens. *)
Lemma dispatch_frame wr ctx b w :
  exists w' t, forall ch,
    dispatch wr ctx b {| world := w; messages := ch |}
    = (tt, {| world := w'; messages := ch |}, t).
Proof.
  unfold_writer.
  destruct (Status b); simpl; try (do 2 eexists; intros; reflexivity).
  - destruct (BuildNewSignatureCommitmentMessage b) as [msg|e]; simpl;
      [|do 2 eexists; intros; reflexivity].
    destruct (contracts wr !! LightClientBridgeContractID) as [c|]; simpl;
      [|do 2 eexists; intros; reflexivity].
    destruct (ContractNewSignatureCommitment c (transactOpts wr ctx) msg w) as [[tx|e] w'];
      simpl; do 2 eexists; intros; reflexivity.
  - destruct (BuildCompleteSignatureCommitmentMessage b) as [msg|e]; simpl;
      [|do 2 eexists; intros; reflexivity].
    destruct (contracts wr !! LightClientBridgeContractID) as [c|]; simpl;
      [|do 2 eexists; intros; reflexivity].
    destruct (ContractCompleteSignatureCommitment c (transactOpts wr ctx) msg w) as [[tx|e] w'];
      simpl; do 2 eexists; intros; reflexivity.
Qed.

Lemma dispatch_messages wr ctx b s :
  messages (final (dispatch wr ctx b s)) = messages s.
Proof.
  destruct s as [w ch].
  destruct (dispatch_frame wr ctx b w) as (w' & t & E). rewrite E. reflexivity.
Qed.

Lemma after_nil {A} (r : A * State * list Event) : after [] r = r.
Proof. destruct r as [[a s] t]. reflexivity. Qed.

Lemma after_after {A} (t1 t2 : list Event) (r : A * State * list Event) :
  after t1 (after t2 r) = after (t1 ++ t2) r.
Proof. unfold after; simpl. rewrite app_assoc. reflexivity. Qed.

Lemma bind_run {A B} (m : M A) (f : A -> M B) s :
  bind m f s = after (events (m s)) (f (result (m s)) (final (m s))).
Proof.
  unfold bind, after, result, final, events.
  destruct (m s) as [[a s1] t1]; simpl.
  destruct (f a s1) as [[b' s2] t2]. reflexivity.
Qed.

Lemma bind_assoc {A B C} (m : M A) (f : A -> M B) (g : B -> M C) s :
  bind (bind m f) g s = bind m (fun a => bind (f a) g) s.
Proof.
  unfold bind.
  destruct (m s) as [[a s1] t1].
  destruct (f a s1) as [[b' s2] t2].
  destruct (g b' s2) as [[c s3] t3].
  rewrite app_assoc. reflexivity.
Qed.

Lemma receive_pushFront (msgs : list Message) s :
  receive (pushFront msgs s) = (Some msgs, s, []).
Proof. destruct s as [w [q c]]. reflexivity. Qed.

(** What the loop does with the batch it receives. *)
Lemma writeLoop_receive wr ctx sched (msgs : list Message) s :
  writeLoop wr ctx (CaseMessages :: sched) (pushFront msgs s)
  = bind (rangeMsgs wr ctx msgs)
      (fun err => match err with
                  | Some e => ret (Returned e)
                  | None => writeLoop wr ctx sched
                  end) s.
Proof.
  cbn [writeLoop]. rewrite bind_run, receive_pushFront.
  cbn [result final events fst snd]. apply after_nil.
Qed.

(** The body of the range loop on one record, then the rest of the batch:
    the write loop goes on as if the batch had held the rest only. *)
Lemma writeLoop_record wr ctx sched b rest s :
  writeLoop wr ctx (CaseMessages :: sched) (pushFront (MsgBeefy b :: rest) s)
  = after (events (dispatch wr ctx b s))
      (writeLoop wr ctx (CaseMessages :: sched)
         (pushFront rest (final (dispatch wr ctx b s)))).
Proof.
  rewrite !writeLoop_receive. cbn [rangeMsgs].
  rewrite bind_assoc, bind_run. reflexivity.
Qed.

(** An empty batch costs one turn of the loop and nothing else. *)
Lemma writeLoop_empty_batch wr ctx sched s :
  writeLoop wr ctx (CaseMessages :: sched) (pushFront [] s) = writeLoop wr ctx sched s.
Proof.
  rewrite writeLoop_receive. cbn [rangeMsgs]. rewrite bind_run.
  cbn [ret result final events fst snd]. apply after_nil.
Qed.

Lemma writeLoop_single wr ctx sched b s :
  writeLoop wr ctx (CaseMessages :: sched) (pushFront [MsgBeefy b] s)
  = after (events (dispatch wr ctx b s))
      (writeLoop wr ctx sched (final (dispatch wr ctx b s))).
Proof. rewrite writeLoop_record, writeLoop_empty_batch. reflexivity. Qed.

(** The initial submission, step by step, when every step succeeds. *)
Lemma dispatch_witnessed_ok wr ctx b msg contract tx w' s :
  Status b = CommitmentWitnessed ->
  BuildNewSignatureCommitmentMessage b = Ok msg ->
  contracts wr !! LightClientBridgeContractID = Some contract ->
  ContractNewSignatureCommitment contract (transactOpts wr ctx) msg (world s) = (Ok tx, w') ->
  dispatch wr ctx b s
  = (tt, {| world := w'; messages := messages s |},
     [LogInfo "Parachain writer received msg";
      CallNewSignatureCommitment contract (transactOpts wr ctx) msg;
      LogInfoTx "New Signature Commitment transaction submitted" (TxHash tx);
      SendBeefy (markSent b tx)]).
Proof.
  intros Hst Hbuild Hreg Hcall.
  unfold_writer. rewrite Hst, Hbuild, Hreg. simpl. rewrite Hcall. reflexivity.
Qed.

(** C1. A witnessed record whose submission succeeds (the builder, the
    registry lookup and the call of the binding all succeed) leads to exactly
    one record on the outbound channel: the input record with the status
    InitialVerificationTxSent and the hash of the transaction the call
    returned, its payload unchanged. The same holds for the write loop run on
    the one-record batch. *)
Theorem witnessed_success_sends_one wr ctx b msg contract tx w' s :
  Status b = CommitmentWitnessed ->
  BuildNewSignatureCommitmentMessage b = Ok msg ->
  contracts wr !! LightClientBridgeContractID = Some contract ->
  ContractNewSignatureCommitment contract (transactOpts wr ctx) msg (world s) = (Ok tx, w') ->
  result (WriteNewSignatureCommitment wr ctx b s) = None /\
  sent (events (dispatch wr ctx b s))
  = [ {| Payload := Payload b;
         Status := InitialVerificationTxSent;
         InitialVerificationTxHash := TxHash tx |} ] /\
  sent (events (writeLoop wr ctx [CaseMessages] (pushFront [MsgBeefy b] s)))
  = [ {| Payload := Payload b;
         Status := InitialVerificationTxSent;
         InitialVerificationTxHash := TxHash tx |} ].
Proof.
  intros Hst Hbuild Hreg Hcall.
  pose proof (dispatch_witnessed_ok wr ctx b msg contract tx w' s Hst Hbuild Hreg Hcall) as E.
  split; [|split].
  - unfold_writer. rewrite Hbuild, Hreg. simpl. rewrite Hcall. reflexivity.
  - rewrite E. reflexivity.
  - rewrite writeLoop_single, E. reflexivity.
Qed.

(** What a failed initial submission leaves behind: the error, and a log
    that ends with the loop's own line for it; nothing is sent. *)
Lemma dispatch_witnessed_fails wr ctx b e s :
  Status b = CommitmentWitnessed ->
  InitialSubmissionFails wr ctx b (world s) e ->
  result (WriteNewSignatureCommitment wr ctx b s) = Some e /\
  sent (events (dispatch wr ctx b s)) = [] /\
  last (events (dispatch wr ctx b s))
  = Some (LogError "Error submitting message to ethereum" e).
Proof.
  intros Hst Hfail. unfold_writer. rewrite Hst.
  destruct Hfail as [err Hbuild | msg Hbuild Hreg | msg c err w' Hbuild Hreg Hcall];
    rewrite Hbuild; try rewrite Hreg; simpl; try rewrite Hcall; simpl; auto.
Qed.

(** C2. A witnessed record whose submission fails (in the builder, for want
    of the contract in the registry, or in the call of the binding) is not
    advanced: the submission returns the error, nothing is sent on the
    outbound channel, the error is logged, and the write loop goes on with
    the rest of the batch. *)
Theorem witnessed_failure_not_advanced wr ctx b e s rest sched :
  Status b = CommitmentWitnessed ->
  InitialSubmissionFails wr ctx b (world s) e ->
  result (WriteNewSignatureCommitment wr ctx b s) = Some e /\
  sent (events (dispatch wr ctx b s)) = [] /\
  last (events (dispatch wr ctx b s))
  = Some (LogError "Error submitting message to ethereum" e) /\
  result (rangeMsgs wr ctx [MsgBeefy b] s) = None /\
  writeLoop wr ctx (CaseMessages :: sched) (pushFront (MsgBeefy b :: rest) s)
  = after (events (dispatch wr ctx b s))
      (writeLoop wr ctx (CaseMessages :: sched)
         (pushFront rest (final (dispatch wr ctx b s)))).
Proof.
  intros Hst Hfail.
  destruct (dispatch_witnessed_fails wr ctx b e s Hst Hfail) as (Hret & Hsent & Hlog).
  repeat split; auto using writeLoop_record.
  cbn [rangeMsgs]. rewrite bind_run. reflexivity.
Qed.

(** C7. A record in the status InitialVerificationTxSent or
    InitialVerificationTxConfirmed is passed over: no submission, nothing
    sent, no event at all, and the loop goes on as if the record were not in
    the batch. A record whose status the switch has no case for gets one log
    line, "Invalid beefy commitment status", and the loop goes on with the
    rest of the batch. *)
Theorem inactive_status_no_action wr ctx b s rest sched :
  Status b <> CommitmentWitnessed ->
  Status b <> ReadyToComplete ->
  dispatch wr ctx b s
  = (tt, s, if recognized (Status b) then []
            else [LogInfo "Invalid beefy commitment status"]) /\
  submissions (events (dispatch wr ctx b s)) = [] /\
  sent (events (dispatch wr ctx b s)) = [] /\
  writeLoop wr ctx (CaseMessages :: sched) (pushFront (MsgBeefy b :: rest) s)
  = after (if recognized (Status b) then []
           else [LogInfo "Invalid beefy commitment status"])
      (writeLoop wr ctx (CaseMessages :: sched) (pushFront rest s)).
Proof.
  intros HnotW HnotR.
  assert (E : dispatch wr ctx b s
              = (tt, s, if recognized (Status b) then []
                        else [LogInfo "Invalid beefy commitment status"])).
  { unfold dispatch. destruct (Status b); try congruence; reflexivity. }
  split; [exact E|]. rewrite writeLoop_record, E.
  cbn [events final fst snd].
  destruct (recognized (Status b)); auto.
Qed.

(** The completing submission, step by step, when every step succeeds. *)
Lemma dispatch_ready_ok wr ctx b msg contract tx w' s :
  Status b = ReadyToComplete ->
  BuildCompleteSignatureCommitmentMessage b = Ok msg ->
  contracts wr !! LightClientBridgeContractID = Some contract ->
  ContractCompleteSignatureCommitment contract (transactOpts wr ctx) msg (world s) = (Ok tx, w') ->
  dispatch wr ctx b s
  = (tt, {| world := w'; messages := messages s |},
     [LogInfo "Parachain writer received msg";
      CallCompleteSignatureCommitment contract (transactOpts wr ctx) msg;
      LogInfoTx "Complete Signature Commitment transaction submitted" (TxHash tx)]).
Proof.
  intros Hst Hbuild Hreg Hcall.
  unfold_writer. rewrite Hst, Hbuild, Hreg. simpl. rewrite Hcall. reflexivity.
Qed.

Lemma dispatch_ready_fails wr ctx b e s :
  Status b = ReadyToComplete ->
  CompleteSubmissionFails wr ctx b (world s) e ->
  result (WriteCompleteSignatureCommitment wr ctx b s) = Some e /\
  sent (events (dispatch wr ctx b s)) = [] /\
  last (events (dispatch wr ctx b s))
  = Some (LogError "Error submitting message to ethereum" e).
Proof.
  intros Hst Hfail. unfold_writer. rewrite Hst.
  destruct Hfail as [err Hbuild | msg Hbuild Hreg | msg c err w' Hbuild Hreg Hcall];
    rewrite Hbuild; try rewrite Hreg; simpl; try rewrite Hcall; simpl; auto.
Qed.

(** A record ready to complete never leads to a send, however the
    submission ends. *)
Lemma dispatch_ready_sends_nothing wr ctx b s :
  Status b = ReadyToComplete ->
  sent (events (dispatch wr ctx b s)) = [].
Proof.
  intros Hst. unfold_writer. rewrite Hst.
  destruct (BuildCompleteSignatureCommitmentMessage b) as [msg|e]; [|reflexivity].
  destruct (contracts wr !! LightClientBridgeContractID) as [c|]; [|reflexivity].
  simpl.
  destruct (ContractCompleteSignatureCommitment c (transactOpts wr ctx) msg (world s))
    as [[tx|e] w']; reflexivity.
Qed.

(** C8. For a record in the status ReadyToComplete nothing is sent on the
    outbound channel and the inbound channel is left alone, however the
    submission ends. When the submission succeeds the events are the call and
    two log lines, and no record is changed; when it fails the error is
    logged; either way the loop takes the next batch. *)
Theorem ready_to_complete_no_local_change wr ctx b s sched :
  Status b = ReadyToComplete ->
  sent (events (dispatch wr ctx b s)) = [] /\
  messages (final (dispatch wr ctx b s)) = messages s /\
  (forall msg contract tx w',
      BuildCompleteSignatureCommitmentMessage b = Ok msg ->
      contracts wr !! LightClientBridgeContractID = Some contract ->
      ContractCompleteSignatureCommitment contract (transactOpts wr ctx) msg (world s)
      = (Ok tx, w') ->
      result (WriteCompleteSignatureCommitment wr ctx b s) = None /\
      events (dispatch wr ctx b s)
      = [LogInfo "Parachain writer received msg";
         CallCompleteSignatureCommitment contract (transactOpts wr ctx) msg;
         LogInfoTx "Complete Signature Commitment transaction submitted" (TxHash tx)]) /\
  (forall e,
      CompleteSubmissionFails wr ctx b (world s) e ->
      result (WriteCompleteSignatureCommitment wr ctx b s) = Some e /\
      last (events (dispatch wr ctx b s))
      = Some (LogError "Error submitting message to ethereum" e)) /\
  writeLoop wr ctx (CaseMessages :: sched) (pushFront [MsgBeefy b] s)
  = after (events (dispatch wr ctx b s))
      (writeLoop wr ctx sched (final (dispatch wr ctx b s))).
Proof.
  intros Hst. split; [|split; [|split; [|split]]].
  - apply dispatch_ready_sends_nothing, Hst.
  - apply dispatch_messages.
  - intros msg c tx w' Hbuild Hreg Hcall. split.
    + unfold_writer. rewrite Hbuild, Hreg. simpl. rewrite Hcall. reflexivity.
    + rewrite (dispatch_ready_ok wr ctx b msg c tx w' s Hst Hbuild Hreg Hcall). reflexivity.
  - intros e Hfail.
    destruct (dispatch_ready_fails wr ctx b e s Hst Hfail) as (Hret & _ & Hlog). auto.
  - apply writeLoop_single.
Qed.

(** *** The range loop and the write loop as a whole *)

Lemma rangeMsgs_beefy wr ctx bs s :
  rangeMsgs wr ctx (map MsgBeefy bs) s
  = (None, final (dispatchAll wr ctx bs s), events (dispatchAll wr ctx bs s)).
Proof.
  revert s. induction bs as [|b bs IH]; intros s; [reflexivity|].
  cbn [map rangeMsgs dispatchAll]. rewrite !bind_run, IH. reflexivity.
Qed.

Lemma rangeMsgs_invalid wr ctx bs n suf s :
  rangeMsgs wr ctx (map MsgBeefy bs ++ MsgOther n :: suf) s
  = (Some "Invalid message",
     final (dispatchAll wr ctx bs s), events (dispatchAll wr ctx bs s)).
Proof.
  revert s. induction bs as [|b bs IH]; intros s; [reflexivity|].
  cbn [map app rangeMsgs dispatchAll]. rewrite !bind_run, IH. reflexivity.
Qed.

Lemma dispatchAll_messages wr ctx bs s :
  messages (final (dispatchAll wr ctx bs s)) = messages s.
Proof.
  revert s. induction bs as [|b bs IH]; intros s; [reflexivity|].
  cbn [dispatchAll]. rewrite bind_run. cbn [after final fst snd].
  rewrite IH. apply dispatch_messages.
Qed.

(** A batch is a run of records, followed or not by a value of another type. *)
Lemma batch_shape (msgs : list Message) :
  (exists bs, msgs = map MsgBeefy bs) \/
  (exists bs n suf, msgs = map MsgBeefy bs ++ MsgOther n :: suf).
Proof.
  induction msgs as [|m msgs IH]; [left; exists []; reflexivity|].
  destruct m as [b|n]; [|right; exists [], n, msgs; reflexivity].
  destruct IH as [(bs & ->) | (bs & n & suf & ->)].
  - left. exists (b :: bs). reflexivity.
  - right. exists (b :: bs), n, suf. reflexivity.
Qed.

Lemma rangeMsgs_messages wr ctx (msgs : list Message) s :
  messages (final (rangeMsgs wr ctx msgs s)) = messages s.
Proof.
  destruct (batch_shape msgs) as [(bs & ->) | (bs & n & suf & ->)].
  - rewrite rangeMsgs_beefy. apply dispatchAll_messages.
  - rewrite rangeMsgs_invalid. apply dispatchAll_messages.
Qed.

Lemma Forall_is_beefy (msgs : list Message) :
  Forall is_beefy msgs -> exists bs, msgs = map MsgBeefy bs.
Proof.
  induction 1 as [|m msgs Hm _ (bs & ->)]; [exists []; reflexivity|].
  destruct m as [b|n]; [|destruct Hm]. exists (b :: bs). reflexivity.
Qed.

(** One turn of the loop on the receive case. *)
Lemma writeLoop_step wr ctx sched s :
  writeLoop wr ctx (CaseMessages :: sched) s
  = match queue (messages s) with
    | [] => writeLoop wr ctx sched s
    | msgs :: rest =>
        let s1 := {| world := world s;
                     messages := {| queue := rest; closed := closed (messages s) |} |} in
        match result (rangeMsgs wr ctx msgs s1) with
        | Some e =>
            (Returned e, final (rangeMsgs wr ctx msgs s1), events (rangeMsgs wr ctx msgs s1))
        | None =>
            after (events (rangeMsgs wr ctx msgs s1))
              (writeLoop wr ctx sched (final (rangeMsgs wr ctx msgs s1)))
        end
    end.
Proof.
  cbn [writeLoop]. rewrite bind_run. unfold receive.
  destruct (queue (messages s)) as [|msgs rest].
  - destruct (closed (messages s)); cbn [result final events fst snd].
    + rewrite after_nil. cbn [rangeMsgs]. rewrite bind_run.
      cbn [ret result final events fst snd]. apply after_nil.
    + apply after_nil.
  - cbn [result final events fst snd]. rewrite after_nil, bind_run.
    destruct (rangeMsgs wr ctx msgs _) as [[[e|] s2] t2];
      cbn [result final events fst snd]; [|reflexivity].
    unfold after, ret; simpl. rewrite app_nil_r. reflexivity.
Qed.

(** C3. A value of another type in a batch makes the write loop return the
    error "Invalid message" at once: the batches still queued stay unreceived,
    and neither the records behind the value nor the rest of the schedule
    have any part in the run. *)
Theorem invalid_type_terminates wr ctx bs n suf sched s :
  result (writeLoop wr ctx (CaseMessages :: sched)
            (pushFront (map MsgBeefy bs ++ MsgOther n :: suf) s))
  = Returned "Invalid message" /\
  messages (final (writeLoop wr ctx (CaseMessages :: sched)
                     (pushFront (map MsgBeefy bs ++ MsgOther n :: suf) s)))
  = messages s /\
  (forall suf' sched',
      writeLoop wr ctx (CaseMessages :: sched')
        (pushFront (map MsgBeefy bs ++ MsgOther n :: suf') s)
      = writeLoop wr ctx (CaseMessages :: sched)
          (pushFront (map MsgBeefy bs ++ MsgOther n :: suf) s)).
Proof.
  assert (E : forall suf' sched',
    writeLoop wr ctx (CaseMessages :: sched')
      (pushFront (map MsgBeefy bs ++ MsgOther n :: suf') s)
    = (Returned "Invalid message",
       final (dispatchAll wr ctx bs s), events (dispatchAll wr ctx bs s))).
  { intros suf' sched'. rewrite writeLoop_receive, bind_run, rangeMsgs_invalid.
    cbn [result final events fst snd ret]. unfold after; simpl.
    rewrite app_nil_r. reflexivity. }
  rewrite E. cbn [result final fst snd].
  split; [reflexivity|]. split; [apply dispatchAll_messages|].
  intros. apply E.
Qed.

Lemma result_after {A} (t : list Event) (r : A * State * list Event) :
  result (after t r) = result r.
Proof. reflexivity. Qed.

Lemma writeLoop_pending wr ctx sched s :
  CaseCtxDone ∉ sched ->
  Forall (Forall is_beefy) (queue (messages s)) ->
  result (writeLoop wr ctx sched s) = Pending.
Proof.
  revert s. induction sched as [|c sched IH]; intros s Hsched Hq; [reflexivity|].
  apply not_elem_of_cons in Hsched as [Hc Hsched].
  destruct c; [congruence|]. rewrite writeLoop_step.
  destruct (queue (messages s)) as [|msgs rest] eqn:Eq.
  - apply IH; [assumption|]. rewrite Eq. constructor.
  - apply Forall_cons in Hq as [Hmsgs Hrest].
    destruct (Forall_is_beefy msgs Hmsgs) as (bs & ->).
    cbn zeta. rewrite rangeMsgs_beefy. cbn [result final events fst snd].
    rewrite result_after. apply IH; [assumption|].
    rewrite dispatchAll_messages. exact Hrest.
Qed.

Lemma writeLoop_idle wr ctx sched s :
  CaseCtxDone ∉ sched ->
  queue (messages s) = [] ->
  writeLoop wr ctx sched s = (Pending, s, []).
Proof.
  induction sched as [|c sched IH]; intros Hsched Hq; [reflexivity|].
  apply not_elem_of_cons in Hsched as [Hc Hsched].
  destruct c; [congruence|]. rewrite writeLoop_step, Hq. auto.
Qed.

(** C4, as the code has it. The write loop does not return as long as its
    select does not take the cancellation case and no batch holds a value of
    another type, whether the inbound channel is closed or not. On a closed
    and drained channel each receive yields an empty batch and the loop goes
    round again: it neither returns nor does anything. *)
Theorem loop_runs_until_cancelled wr ctx sched s :
  CaseCtxDone ∉ sched ->
  Forall (Forall is_beefy) (queue (messages s)) ->
  result (writeLoop wr ctx sched s) = Pending /\
  (queue (messages s) = [] -> writeLoop wr ctx sched s = (Pending, s, [])).
Proof.
  intros Hsched Hq. split.
  - apply writeLoop_pending; assumption.
  - apply writeLoop_idle, Hsched.
Qed.

Lemma writeLoop_app wr ctx pre sched s :
  Forall (fun c => c = CaseMessages) pre ->
  result (writeLoop wr ctx pre s) = Pending ->
  writeLoop wr ctx (pre ++ sched) s
  = after (events (writeLoop wr ctx pre s))
      (writeLoop wr ctx sched (final (writeLoop wr ctx pre s))).
Proof.
  revert s. induction pre as [|c pre IH]; intros s Hpre Hrun.
  - cbn [app writeLoop ret events final fst snd]. symmetry. apply after_nil.
  - apply Forall_cons in Hpre as [-> Hpre].
    cbn [app]. rewrite writeLoop_step. rewrite writeLoop_step in Hrun |- *.
    destruct (queue (messages s)) as [|msgs rest]; [apply IH; assumption|].
    cbn zeta in *.
    destruct (result (rangeMsgs wr ctx msgs _)) as [e|]; [discriminate Hrun|].
    rewrite result_after in Hrun. rewrite IH by assumption.
    rewrite after_after. reflexivity.
Qed.

Lemma writeLoop_closed wr ctx sched s :
  closed (messages (final (writeLoop wr ctx sched s))) = closed (messages s).
Proof.
  revert s. induction sched as [|c sched IH]; intros s; [reflexivity|].
  destruct c; [reflexivity|]. rewrite writeLoop_step.
  destruct (queue (messages s)) as [|msgs rest]; [apply IH|].
  cbn zeta.
  destruct (result (rangeMsgs wr ctx msgs _)) as [e|].
  - cbn [final fst snd]. rewrite rangeMsgs_messages. reflexivity.
  - unfold after; cbn [final fst snd]. rewrite IH, rangeMsgs_messages. reflexivity.
Qed.

(** C5. When the select takes the cancellation case, after any number of
    turns in which the loop kept running, and the producer closes the inbound
    channel, the loop logs the shutdown, receives and discards every batch
    still to come (one "Discarded message" line each, no submission, nothing
    sent, the world untouched), and returns the error of the context. *)
Theorem cancellation_drains_and_returns wr ctx pre rest s :
  Forall (fun c => c = CaseMessages) pre ->
  result (writeLoop wr ctx pre s) = Pending ->
  closed (messages s) = true ->
  result (writeLoop wr ctx (pre ++ CaseCtxDone :: rest) s) = Returned (Err ctx) /\
  queue (messages (final (writeLoop wr ctx (pre ++ CaseCtxDone :: rest) s))) = [] /\
  world (final (writeLoop wr ctx (pre ++ CaseCtxDone :: rest) s))
  = world (final (writeLoop wr ctx pre s)) /\
  events (writeLoop wr ctx (pre ++ CaseCtxDone :: rest) s)
  = events (writeLoop wr ctx pre s)
    ++ LogInfo "Shutting down writer..."
       :: discardAll (queue (messages (final (writeLoop wr ctx pre s)))) /\
  length (discardAll (queue (messages (final (writeLoop wr ctx pre s)))))
  = length (queue (messages (final (writeLoop wr ctx pre s)))).
Proof.
  intros Hpre Hrun Hclosed.
  rewrite (writeLoop_app wr ctx pre (CaseCtxDone :: rest) s Hpre Hrun).
  pose proof (writeLoop_closed wr ctx pre s) as Hc. rewrite Hclosed in Hc.
  cbn [writeLoop]. unfold onDone. rewrite bind_run.
  cbn [emit result final events fst snd after]. rewrite Hc.
  repeat split.
  induction (queue (messages (final (writeLoop wr ctx pre s)))) as [|x q IH];
    [reflexivity|]. cbn [discardAll length]. rewrite IH. reflexivity.
Qed.

(** *** What stands behind every send and every call *)

Lemma justified_mono (inbox inbox' : list Message) (e : Event) :
  (forall m, m ∈ inbox -> m ∈ inbox') ->
  justified inbox e -> justified inbox' e.
Proof.
  intros Hsub. destruct e; simpl; auto;
    intros (b & Hin & Hrest); exists b; split; auto.
Qed.

Lemma dispatch_justified wr ctx b s :
  Forall (justified [MsgBeefy b]) (events (dispatch wr ctx b s)).
Proof.
  assert (Hin : MsgBeefy b ∈ [MsgBeefy b]) by apply list_elem_of_here.
  assert (Hadv : status_advances CommitmentWitnessed InitialVerificationTxSent)
    by (unfold status_advances; simpl; lia).
  unfold_writer. destruct (Status b) eqn:Hst; simpl;
    try (repeat first [apply Forall_nil | apply Forall_cons; split]; exact I).
  - destruct (BuildNewSignatureCommitmentMessage b) as [msg|e] eqn:Hbuild; simpl;
      [|repeat first [apply Forall_nil | apply Forall_cons; split]; exact I].
    destruct (contracts wr !! LightClientBridgeContractID) as [c|]; simpl;
      [|repeat first [apply Forall_nil | apply Forall_cons; split]; exact I].
    destruct (ContractNewSignatureCommitment c (transactOpts wr ctx) msg (world s))
      as [[tx|e] w']; simpl;
      repeat first [apply Forall_nil | apply Forall_cons; split]; simpl;
      try exact I; exists b; rewrite ?Hst; auto 6.
  - destruct (BuildCompleteSignatureCommitmentMessage b) as [msg|e] eqn:Hbuild; simpl;
      [|repeat first [apply Forall_nil | apply Forall_cons; split]; exact I].
    destruct (contracts wr !! LightClientBridgeContractID) as [c|]; simpl;
      [|repeat first [apply Forall_nil | apply Forall_cons; split]; exact I].
    destruct (ContractCompleteSignatureCommitment c (transactOpts wr ctx) msg (world s))
      as [[tx|e] w']; simpl;
      repeat first [apply Forall_nil | apply Forall_cons; split]; simpl;
      try exact I; exists b; auto.
Qed.

Lemma dispatchAll_justified wr ctx bs s :
  Forall (justified (map MsgBeefy bs)) (events (dispatchAll wr ctx bs s)).
Proof.
  revert s. induction bs as [|b bs IH]; intros s; [constructor|].
  cbn [dispatchAll map]. rewrite bind_run. unfold after; cbn [events snd].
  apply Forall_app. split.
  - eapply Forall_impl; [apply dispatch_justified|].
    intros e. apply justified_mono. intros m Hm.
    apply list_elem_of_singleton in Hm as ->. apply list_elem_of_here.
  - eapply Forall_impl; [apply IH|].
    intros e. apply justified_mono. intros m Hm. apply list_elem_of_further, Hm.
Qed.

Lemma rangeMsgs_justified wr ctx (msgs : list Message) s :
  Forall (justified msgs) (events (rangeMsgs wr ctx msgs s)).
Proof.
  destruct (batch_shape msgs) as [(bs & ->) | (bs & n & suf & ->)].
  - rewrite rangeMsgs_beefy. apply dispatchAll_justified.
  - rewrite rangeMsgs_invalid. cbn [events snd].
    eapply Forall_impl; [apply dispatchAll_justified|].
    intros e. apply justified_mono. intros m Hm. apply elem_of_app. left. exact Hm.
Qed.

Lemma discardAll_justified (inbox : list Message) (q : list (list Message)) :
  Forall (justified inbox) (discardAll q).
Proof. induction q as [|x q IH]; constructor; [exact I | exact IH]. Qed.

(** C6. In every run of the write loop, whatever the schedule: a record
    sent on the outbound channel is a received record that was in the status
    CommitmentWitnessed, now in InitialVerificationTxSent (a later status),
    with its payload; a call of the initial submission carries the message
    built from a received record in the status CommitmentWitnessed, a call of
    the completing submission one built from a received record in the status
    ReadyToComplete. *)
Theorem status_only_advances wr ctx sched s :
  Forall (justified (concat (queue (messages s))))
         (events (writeLoop wr ctx sched s)).
Proof.
  revert s. induction sched as [|c sched IH]; intros s; [constructor|].
  destruct c.
  - cbn [writeLoop]. unfold onDone. rewrite bind_run.
    unfold after; cbn [emit result final events fst snd app].
    constructor; [exact I | apply discardAll_justified].
  - rewrite writeLoop_step.
    destruct (queue (messages s)) as [|msgs rest] eqn:Eq.
    + specialize (IH s). rewrite Eq in IH. exact IH.
    + cbn zeta. cbn [concat].
      set (s1 := {| world := world s;
                    messages := {| queue := rest; closed := closed (messages s) |} |}).
      assert (Hhead : Forall (justified (msgs ++ concat rest))
                             (events (rangeMsgs wr ctx msgs s1))).
      { eapply Forall_impl; [apply rangeMsgs_justified|].
        intros e. apply justified_mono. intros m Hm. apply elem_of_app. left. exact Hm. }
      destruct (result (rangeMsgs wr ctx msgs s1)) as [e|]; [exact Hhead|].
      unfold after; cbn [events snd]. apply Forall_app. split; [exact Hhead|].
      specialize (IH (final (rangeMsgs wr ctx msgs s1))).
      rewrite rangeMsgs_messages in IH. cbn [s1 messages queue] in IH.
      eapply Forall_impl; [exact IH|].
      intros e'. apply justified_mono. intros m Hm. apply elem_of_app. right. exact Hm.
Qed.

(** *** A batch cut short by a value of another type *)

Lemma dispatchAll_app wr ctx bs1 bs2 s :
  dispatchAll wr ctx (bs1 ++ bs2) s
  = after (events (dispatchAll wr ctx bs1 s))
      (dispatchAll wr ctx bs2 (final (dispatchAll wr ctx bs1 s))).
Proof.
  revert s. induction bs1 as [|b bs1 IH]; intros s.
  - cbn [app dispatchAll ret events final fst snd]. symmetry. apply after_nil.
  - cbn [app dispatchAll]. rewrite !bind_run, IH, after_after. reflexivity.
Qed.

(** The record [b] in the middle of a run of records: what came before,
    then its dispatch, then what comes after. *)
Lemma dispatchAll_middle wr ctx bs1 b bs2 s :
  dispatchAll wr ctx (bs1 ++ b :: bs2) s
  = after (events (dispatchAll wr ctx bs1 s)
           ++ events (dispatch wr ctx b (final (dispatchAll wr ctx bs1 s))))
      (dispatchAll wr ctx bs2
         (final (dispatch wr ctx b (final (dispatchAll wr ctx bs1 s))))).
Proof.
  rewrite dispatchAll_app. cbn [dispatchAll]. rewrite bind_run, after_after.
  reflexivity.
Qed.

Lemma dispatch_witnessed_call_fails wr ctx b msg contract e w' s :
  Status b = CommitmentWitnessed ->
  BuildNewSignatureCommitmentMessage b = Ok msg ->
  contracts wr !! LightClientBridgeContractID = Some contract ->
  ContractNewSignatureCommitment contract (transactOpts wr ctx) msg (world s) = (Fail e, w') ->
  dispatch wr ctx b s
  = (tt, {| world := w'; messages := messages s |},
     [LogInfo "Parachain writer received msg";
      CallNewSignatureCommitment contract (transactOpts wr ctx) msg;
      LogError "Failed to submit transaction" e;
      LogError "Error submitting message to ethereum" e]).
Proof.
  intros Hst Hbuild Hreg Hcall.
  unfold_writer. rewrite Hst, Hbuild, Hreg. simpl. rewrite Hcall. reflexivity.
Qed.

Lemma dispatch_ready_call_fails wr ctx b msg contract e w' s :
  Status b = ReadyToComplete ->
  BuildCompleteSignatureCommitmentMessage b = Ok msg ->
  contracts wr !! LightClientBridgeContractID = Some contract ->
  ContractCompleteSignatureCommitment contract (transactOpts wr ctx) msg (world s) = (Fail e, w') ->
  dispatch wr ctx b s
  = (tt, {| world := w'; messages := messages s |},
     [LogInfo "Parachain writer received msg";
      CallCompleteSignatureCommitment contract (transactOpts wr ctx) msg;
      LogError "Failed to submit transaction" e;
      LogError "Error submitting message to ethereum" e]).
Proof.
  intros Hst Hbuild Hreg Hcall.
  unfold_writer. rewrite Hst, Hbuild, Hreg. simpl. rewrite Hcall. reflexivity.
Qed.

Lemma writeLoop_invalid wr ctx bs n suf sched s :
  writeLoop wr ctx (CaseMessages :: sched)
    (pushFront (map MsgBeefy bs ++ MsgOther n :: suf) s)
  = (Returned "Invalid message",
     final (dispatchAll wr ctx bs s),
     events (dispatchAll wr ctx bs s)).
Proof.
  rewrite writeLoop_receive, bind_run, rangeMsgs_invalid.
  cbn [result final events fst snd ret]. unfold after; simpl.
  rewrite app_nil_r. reflexivity.
Qed.

Ltac in_events :=
  unfold after; cbn [events snd];
  repeat first
    [ apply list_elem_of_here
    | apply elem_of_app; left; apply elem_of_app; right
    | apply list_elem_of_further ].

(** C10. When a batch holds the records [bs] and then a value of another
    type (at position [length bs]), the loop returns "Invalid message" and:

    - every record before the value has been dispatched, in order. For a
      witnessed record that the builder accepts, with the contract in the
      registry, the call of the initial submission is among the events of the
      run, made at the world the records before it left behind; when the call
      succeeds the record is sent on the outbound channel with the status
      InitialVerificationTxSent and the hash of the transaction, the events of
      the run are those of the records before it, its own four, then those of
      the records after it, which start from the world the call left behind;
      when the call fails both error lines are logged. Likewise the call of
      the completing submission is made for a record ready to complete;
    - nothing is done for the value or for what follows it: every send and
      every call of the run stems from a record before the value, the state
      and the events are those of the batch of [bs] alone, and the batches
      still queued are left on the channel. *)
Theorem invalid_type_keeps_prefix wr ctx bs n suf sched s :
  let run := writeLoop wr ctx (CaseMessages :: sched)
               (pushFront (map MsgBeefy bs ++ MsgOther n :: suf) s) in
  (map MsgBeefy bs ++ MsgOther n :: suf) !! length bs = Some (MsgOther n) /\
  run = (Returned "Invalid message",
         final (dispatchAll wr ctx bs s),
         events (dispatchAll wr ctx bs s)) /\
  writeLoop wr ctx [CaseMessages] (pushFront (map MsgBeefy bs) s)
  = (Pending,
     final (dispatchAll wr ctx bs s),
     events (dispatchAll wr ctx bs s)) /\
  (forall bs1 b bs2 msg contract,
      bs = bs1 ++ b :: bs2 ->
      Status b = CommitmentWitnessed ->
      BuildNewSignatureCommitmentMessage b = Ok msg ->
      contracts wr !! LightClientBridgeContractID = Some contract ->
      CallNewSignatureCommitment contract (transactOpts wr ctx) msg ∈ events run /\
      match ContractNewSignatureCommitment contract (transactOpts wr ctx) msg
              (world (final (dispatchAll wr ctx bs1 s))) with
      | (Ok tx, w') =>
          SendBeefy {| Payload := Payload b;
                       Status := InitialVerificationTxSent;
                       InitialVerificationTxHash := TxHash tx |} ∈ events run /\
          events run
          = events (dispatchAll wr ctx bs1 s)
            ++ [LogInfo "Parachain writer received msg";
                CallNewSignatureCommitment contract (transactOpts wr ctx) msg;
                LogInfoTx "New Signature Commitment transaction submitted" (TxHash tx);
                SendBeefy {| Payload := Payload b;
                             Status := InitialVerificationTxSent;
                             InitialVerificationTxHash := TxHash tx |}]
            ++ events (dispatchAll wr ctx bs2 {| world := w'; messages := messages s |}) /\
          final run
          = final (dispatchAll wr ctx bs2 {| world := w'; messages := messages s |})
      | (Fail e, w') =>
          LogError "Failed to submit transaction" e ∈ events run /\
          LogError "Error submitting message to ethereum" e ∈ events run /\
          final run
          = final (dispatchAll wr ctx bs2 {| world := w'; messages := messages s |})
      end) /\
  (forall bs1 b bs2 msg contract,
      bs = bs1 ++ b :: bs2 ->
      Status b = ReadyToComplete ->
      BuildCompleteSignatureCommitmentMessage b = Ok msg ->
      contracts wr !! LightClientBridgeContractID = Some contract ->
      CallCompleteSignatureCommitment contract (transactOpts wr ctx) msg ∈ events run /\
      match ContractCompleteSignatureCommitment contract (transactOpts wr ctx) msg
              (world (final (dispatchAll wr ctx bs1 s))) with
      | (Ok tx, w') =>
          LogInfoTx "Complete Signature Commitment transaction submitted" (TxHash tx)
            ∈ events run /\
          final run
          = final (dispatchAll wr ctx bs2 {| world := w'; messages := messages s |})
      | (Fail e, w') =>
          LogError "Failed to submit transaction" e ∈ events run /\
          LogError "Error submitting message to ethereum" e ∈ events run /\
          final run
          = final (dispatchAll wr ctx bs2 {| world := w'; messages := messages s |})
      end) /\
  Forall (justified (map MsgBeefy bs)) (events run) /\
  messages (final run) = messages s.
Proof.
  intros run.
  assert (Erun : run = (Returned "Invalid message",
                        final (dispatchAll wr ctx bs s),
                        events (dispatchAll wr ctx bs s)))
    by apply writeLoop_invalid.
  split; [|split; [exact Erun|split; [|split; [|split; [|split]]]]].
  - rewrite lookup_app_r; rewrite length_map; [|lia].
    rewrite Nat.sub_diag. reflexivity.
  - rewrite writeLoop_receive, bind_run, rangeMsgs_beefy.
    cbn [result final events fst snd ret writeLoop]. unfold after; simpl.
    rewrite app_nil_r. reflexivity.
  - intros bs1 b bs2 msg c -> Hst Hbuild Hreg.
    rewrite Erun. cbn [events final fst snd]. rewrite dispatchAll_middle.
    pose proof (dispatchAll_messages wr ctx bs1 s) as Hm.
    destruct (ContractNewSignatureCommitment c (transactOpts wr ctx) msg
                (world (final (dispatchAll wr ctx bs1 s)))) as [[tx|e] w'] eqn:Hcall.
    + rewrite (dispatch_witnessed_ok wr ctx b msg c tx w' _ Hst Hbuild Hreg Hcall).
      cbn [events final fst snd]. rewrite Hm.
      split; [in_events|]. split; [in_events|]. split; [|reflexivity].
      unfold after; cbn [events snd]. rewrite <- app_assoc. reflexivity.
    + rewrite (dispatch_witnessed_call_fails wr ctx b msg c e w' _ Hst Hbuild Hreg Hcall).
      cbn [events final fst snd]. rewrite Hm.
      split; [in_events|]. split; [in_events|]. split; [in_events|reflexivity].
  - intros bs1 b bs2 msg c -> Hst Hbuild Hreg.
    rewrite Erun. cbn [events final fst snd]. rewrite dispatchAll_middle.
    pose proof (dispatchAll_messages wr ctx bs1 s) as Hm.
    destruct (ContractCompleteSignatureCommitment c (transactOpts wr ctx) msg
                (world (final (dispatchAll wr ctx bs1 s)))) as [[tx|e] w'] eqn:Hcall.
    + rewrite (dispatch_ready_ok wr ctx b msg c tx w' _ Hst Hbuild Hreg Hcall).
      cbn [events final fst snd]. rewrite Hm.
      split; [in_events|]. split; [in_events|reflexivity].
    + rewrite (dispatch_ready_call_fails wr ctx b msg c e w' _ Hst Hbuild Hreg Hcall).
      cbn [events final fst snd]. rewrite Hm.
      split; [in_events|]. split; [in_events|]. split; [in_events|reflexivity].
  - rewrite Erun. apply dispatchAll_justified.
  - rewrite Erun. apply dispatchAll_messages.
Qed.

(** *** Start-up *)

(** C9. [Start] constructs the binding for the configured address and, when
    that succeeds, stores it in the registry under "lightclientbridge",
    leaves every other entry as it was, and starts the write loop. When the
    construction fails, [Start] returns that error, the registry is as before
    and the loop is not started. Nothing else makes start-up fail:
    [NewWriter] always succeeds. *)
Theorem start_registers_or_aborts wr cfg cn reg :
  NewWriter cfg cn reg = Ok {| config := cfg; conn := cn; contracts := reg |} /\
  match NewContract (HexToAddress (RelayBridgeLightClient (config wr)))
                    (GetClient (conn wr)) with
  | Ok contract =>
      Start wr
      = (None,
         {| config := config wr; conn := conn wr;
            contracts := <[LightClientBridgeContractID := contract]> (contracts wr) |},
         true) /\
      contracts (Start wr).1.2 !! "lightclientbridge" = Some contract /\
      (forall id, id <> "lightclientbridge" ->
                  contracts (Start wr).1.2 !! id = contracts wr !! id)
  | Fail err => Start wr = (Some err, wr, false)
  end.
Proof.
  split; [reflexivity|]. unfold Start.
  destruct (NewContract _ _) as [contract|err]; [|reflexivity].
  cbn [fst snd contracts]. split; [reflexivity|]. split.
  - apply lookup_insert_eq.
  - intros id Hid. apply lookup_insert_ne. unfold LightClientBridgeContractID. congruence.
Qed.

(** *** Further properties of the runs *)

Lemma sent_app (t1 t2 : list Event) : sent (t1 ++ t2) = sent t1 ++ sent t2.
Proof.
  induction t1 as [|e t1 IH]; [reflexivity|].
  destruct e; simpl; rewrite ?IH; reflexivity.
Qed.

Lemma submissions_app (t1 t2 : list Event) :
  submissions (t1 ++ t2) = submissions t1 ++ submissions t2.
Proof.
  induction t1 as [|e t1 IH]; [reflexivity|].
  simpl; destruct (is_submission e); simpl; rewrite IH; reflexivity.
Qed.

Lemma onDone_events wr ctx s :
  events (onDone wr ctx s)
  = [LogInfo "Shutting down writer..."] ++ discardAll (queue (messages s)).
Proof. unfold onDone. rewrite bind_run. reflexivity. Qed.

(** What holds of the empty trace, of two traces put together, of the events
    of every dispatch and of the two log lines of the drain holds of the
    events of every run. *)
Lemma writeLoop_events_ind wr ctx (Q : list Event -> Prop) :
  Q [] ->
  (forall t1 t2, Q t1 -> Q t2 -> Q (t1 ++ t2)) ->
  (forall b s, Q (events (dispatch wr ctx b s))) ->
  Q [LogInfo "Shutting down writer..."] ->
  Q [LogDebug "Discarded message"] ->
  forall sched s, Q (events (writeLoop wr ctx sched s)).
Proof.
  intros Hnil Happ Hdispatch Hshut Hdisc.
  assert (Hall : forall bs s, Q (events (dispatchAll wr ctx bs s))).
  { induction bs as [|b bs IH]; intros s; [exact Hnil|].
    cbn [dispatchAll]. rewrite bind_run. unfold after; cbn [events snd]. auto. }
  assert (Hrange : forall (msgs : list Message) s, Q (events (rangeMsgs wr ctx msgs s))).
  { intros msgs s. destruct (batch_shape msgs) as [(bs & ->) | (bs & n & suf & ->)].
    - rewrite rangeMsgs_beefy. apply Hall.
    - rewrite rangeMsgs_invalid. apply Hall. }
  assert (Hdrain : forall q : list (list Message), Q (discardAll q)).
  { induction q as [|x q IH]; [exact Hnil|].
    change (Q ([LogDebug "Discarded message"] ++ discardAll q)). auto. }
  induction sched as [|c sched IH]; intros s; [exact Hnil|].
  destruct c.
  - cbn [writeLoop]. rewrite onDone_events. auto.
  - rewrite writeLoop_step.
    destruct (queue (messages s)) as [|msgs rest]; [apply IH|].
    cbn zeta. destruct (result (rangeMsgs wr ctx msgs _)) as [e|]; [apply Hrange|].
    unfold after; cbn [events snd]. auto.
Qed.

Ltac break_dispatch :=
  unfold_writer;
  repeat match goal with
    | |- context [match Status ?b with _ => _ end] => destruct (Status b) eqn:?
    | |- context [BuildNewSignatureCommitmentMessage ?b] =>
        destruct (BuildNewSignatureCommitmentMessage b) eqn:?
    | |- context [BuildCompleteSignatureCommitmentMessage ?b] =>
        destruct (BuildCompleteSignatureCommitmentMessage b) eqn:?
    | |- context [contracts ?wr !! ?k] => destruct (contracts wr !! k) eqn:?
    | |- context [ContractNewSignatureCommitment ?c ?o ?m ?w] =>
        destruct (ContractNewSignatureCommitment c o m w) as [[?|?] ?] eqn:?
    | |- context [ContractCompleteSignatureCommitment ?c ?o ?m ?w] =>
        destruct (ContractCompleteSignatureCommitment c o m w) as [[?|?] ?] eqn:?
    | _ => progress simpl
    end.

Lemma signerFn_signs wr (a : Address) (tx : Transaction) :
  signerFn wr a tx = SignTxHomestead tx (KeyPairPrivateKey (conn wr)).
Proof. unfold signerFn. destruct (SignTxHomestead _ _); reflexivity. Qed.

Lemma dispatch_as_configured wr ctx b s :
  Forall (call_as_configured wr ctx) (events (dispatch wr ctx b s)).
Proof.
  break_dispatch;
    repeat first [apply Forall_nil | apply Forall_cons; split]; simpl; auto.
Qed.

(** X1. In every run of the write loop each contract call, of either kind,
    is made on the binding the registry holds under "lightclientbridge" and
    with the same options: the sender is the address of the connection's key
    pair, the context is the loop's, the gas limit is 5000000, and the signer
    signs with the private key of the connection whatever address it is
    given. *)
Theorem calls_use_configured_options wr ctx sched s :
  Forall (call_as_configured wr ctx) (events (writeLoop wr ctx sched s)) /\
  From (transactOpts wr ctx) = KeyPairCommonAddress (conn wr) /\
  Context (transactOpts wr ctx) = ctx /\
  GasLimit (transactOpts wr ctx) = 5000000%Z /\
  (forall a tx, Signer (transactOpts wr ctx) a tx
                = SignTxHomestead tx (KeyPairPrivateKey (conn wr))).
Proof.
  split; [|repeat split; apply signerFn_signs].
  apply (writeLoop_events_ind wr ctx (Forall (call_as_configured wr ctx))).
  - constructor.
  - intros t1 t2 H1 H2. apply Forall_app. auto.
  - apply dispatch_as_configured.
  - repeat constructor.
  - repeat constructor.
Qed.

(** X2. The write loop returns two errors only. It returns the error of the
    context, and then the cancellation case is in the schedule and the inbound
    channel is closed; or it returns "Invalid message", and then a queued
    batch holds a value of another type. The errors of the builder and of the
    binding never leave the loop. *)
Theorem loop_returns_only_fatal wr ctx sched s e :
  result (writeLoop wr ctx sched s) = Returned e ->
  (e = Err ctx /\ CaseCtxDone ∈ sched /\ closed (messages s) = true) \/
  (e = "Invalid message" /\
   exists msgs n, msgs ∈ queue (messages s) /\ MsgOther n ∈ msgs).
Proof.
  revert s. induction sched as [|c sched IH]; intros s Hret; [discriminate Hret|].
  destruct c.
  - left. cbn [writeLoop] in Hret. unfold onDone in Hret. rewrite bind_run in Hret.
    cbn [emit result final events fst snd after] in Hret.
    destruct (closed (messages s)); [|discriminate Hret].
    injection Hret as <-. repeat split. apply list_elem_of_here.
  - rewrite writeLoop_step in Hret.
    destruct (queue (messages s)) as [|msgs rest] eqn:Eq.
    + destruct (IH s Hret) as [(-> & Hin & Hc) | (-> & msgs & n & Hin & _)].
      * left. repeat split; [apply list_elem_of_further, Hin | exact Hc].
      * rewrite Eq in Hin. apply not_elem_of_nil in Hin. destruct Hin.
    + cbn zeta in Hret.
      destruct (batch_shape msgs) as [(bs & ->) | (bs & n & suf & ->)].
      * rewrite rangeMsgs_beefy in Hret. cbn [result final events fst snd] in Hret.
        rewrite result_after in Hret.
        destruct (IH _ Hret) as [(-> & Hin & Hc) | (-> & msgs & n & Hin & Hbad)].
        -- left. rewrite dispatchAll_messages in Hc.
           repeat split; [apply list_elem_of_further, Hin | exact Hc].
        -- right. split; [reflexivity|]. exists msgs, n.
           rewrite dispatchAll_messages in Hin.
           split; [apply list_elem_of_further, Hin | exact Hbad].
      * rewrite rangeMsgs_invalid in Hret. cbn [result fst] in Hret.
        injection Hret as <-. right. split; [reflexivity|].
        exists (map MsgBeefy bs ++ MsgOther n :: suf), n.
        split; [apply list_elem_of_here|].
        apply elem_of_app. right. apply list_elem_of_here.
Qed.

Lemma dispatch_sent_le_calls wr ctx b s :
  length (sent (events (dispatch wr ctx b s)))
  <= length (submissions (events (dispatch wr ctx b s))).
Proof. break_dispatch; lia. Qed.

Lemma dispatch_no_call_no_change wr ctx b s :
  submissions (events (dispatch wr ctx b s)) = [] ->
  final (dispatch wr ctx b s) = s.
Proof. break_dispatch; intros Hno; try discriminate Hno; reflexivity. Qed.

Lemma dispatchAll_no_call_no_change wr ctx bs s :
  submissions (events (dispatchAll wr ctx bs s)) = [] ->
  final (dispatchAll wr ctx bs s) = s.
Proof.
  revert s. induction bs as [|b bs IH]; intros s Hno; [reflexivity|].
  cbn [dispatchAll] in *. rewrite bind_run in *. unfold after in *.
  cbn [events final fst snd] in *.
  rewrite submissions_app in Hno. apply app_eq_nil in Hno as [H1 H2].
  rewrite (dispatch_no_call_no_change _ _ _ _ H1) in H2 |- *. auto.
Qed.

Lemma rangeMsgs_no_call_no_change wr ctx (msgs : list Message) s :
  submissions (events (rangeMsgs wr ctx msgs s)) = [] ->
  final (rangeMsgs wr ctx msgs s) = s.
Proof.
  destruct (batch_shape msgs) as [(bs & ->) | (bs & n & suf & ->)].
  - rewrite rangeMsgs_beefy. apply dispatchAll_no_call_no_change.
  - rewrite rangeMsgs_invalid. apply dispatchAll_no_call_no_change.
Qed.

Lemma writeLoop_no_call_world wr ctx sched s :
  submissions (events (writeLoop wr ctx sched s)) = [] ->
  world (final (writeLoop wr ctx sched s)) = world s.
Proof.
  revert s. induction sched as [|c sched IH]; intros s Hno; [reflexivity|].
  destruct c; [reflexivity|].
  rewrite writeLoop_step in Hno |- *.
  destruct (queue (messages s)) as [|msgs rest]; [auto|].
  cbn zeta in *.
  destruct (result (rangeMsgs wr ctx msgs _)) as [e|].
  - cbn [events final fst snd] in *.
    rewrite (rangeMsgs_no_call_no_change _ _ _ _ Hno). reflexivity.
  - unfold after in *. cbn [events final fst snd] in *.
    rewrite submissions_app in Hno. apply app_eq_nil in Hno as [H1 H2].
    rewrite (rangeMsgs_no_call_no_change _ _ _ _ H1) in H2 |- *.
    rewrite (IH _ H2). reflexivity.
Qed.

Lemma sent_le_calls wr ctx sched s :
  length (sent (events (writeLoop wr ctx sched s)))
  <= length (submissions (events (writeLoop wr ctx sched s))).
Proof.
  apply (writeLoop_events_ind wr ctx
           (fun t => length (sent t) <= length (submissions t))); simpl; try lia.
  - intros t1 t2 H1 H2. rewrite sent_app, submissions_app, !length_app. lia.
  - apply dispatch_sent_le_calls.
Qed.

Lemma sends_need_calls_aux wr ctx sched s :
  submissions (events (writeLoop wr ctx sched s)) = [] ->
  sent (events (writeLoop wr ctx sched s)) = [] /\
  world (final (writeLoop wr ctx sched s)) = world s.
Proof.
  intros Hno. split; [|apply writeLoop_no_call_world, Hno].
  pose proof (sent_le_calls wr ctx sched s) as Hle.
  rewrite Hno in Hle. destruct (sent _); [reflexivity | simpl in Hle; lia].
Qed.

(** X3. In every run the records sent on the outbound channel are no more
    than the contract calls made: no record is reported as sent without a
    transaction having been submitted. A run that makes no call sends nothing
    and leaves the world as it was. *)
Theorem sends_need_calls wr ctx sched s :
  length (sent (events (writeLoop wr ctx sched s)))
  <= length (submissions (events (writeLoop wr ctx sched s))) /\
  (submissions (events (writeLoop wr ctx sched s)) = [] ->
   sent (events (writeLoop wr ctx sched s)) = [] /\
   world (final (writeLoop wr ctx sched s)) = world s).
Proof.
  split; [apply sent_le_calls | apply sends_need_calls_aux].
Qed.

Lemma dispatch_unregistered wr ctx b s :
  contracts wr !! LightClientBridgeContractID = None ->
  submissions (events (dispatch wr ctx b s)) = [].
Proof. intros Hreg. unfold_writer. rewrite Hreg. break_dispatch; reflexivity. Qed.

(** X4. A writer whose registry has no entry under "lightclientbridge" (a
    writer that was not started) calls no contract and sends nothing,
    whatever it receives and however long it runs; the world stays as it
    was. *)
Theorem unregistered_writer_is_inert wr ctx sched s :
  contracts wr !! LightClientBridgeContractID = None ->
  submissions (events (writeLoop wr ctx sched s)) = [] /\
  sent (events (writeLoop wr ctx sched s)) = [] /\
  world (final (writeLoop wr ctx sched s)) = world s.
Proof.
  intros Hreg.
  assert (Hno : submissions (events (writeLoop wr ctx sched s)) = []).
  { apply (writeLoop_events_ind wr ctx (fun t => submissions t = [])); try reflexivity.
    - intros t1 t2 H1 H2. rewrite submissions_app, H1, H2. reflexivity.
    - intros b s'. apply dispatch_unregistered, Hreg. }
  split; [exact Hno|].
  destruct (sends_need_calls_aux wr ctx sched s Hno) as [H1 H2]. auto.
Qed.

Lemma witnessedPayloads_app (l1 l2 : list Message) :
  witnessedPayloads (l1 ++ l2) = witnessedPayloads l1 ++ witnessedPayloads l2.
Proof.
  induction l1 as [|m l1 IH]; [reflexivity|].
  destruct m as [b|n]; cbn [app witnessedPayloads]; [|exact IH].
  destruct (Status b); rewrite IH; reflexivity.
Qed.

Lemma dispatch_sent_in_order wr ctx b s :
  map Payload (sent (events (dispatch wr ctx b s)))
  `sublist_of` witnessedPayloads [MsgBeefy b].
Proof.
  cbn [witnessedPayloads]. break_dispatch;
    first [apply sublist_nil_l | reflexivity].
Qed.

Lemma dispatchAll_sent_in_order wr ctx bs s :
  map Payload (sent (events (dispatchAll wr ctx bs s)))
  `sublist_of` witnessedPayloads (map MsgBeefy bs).
Proof.
  revert s. induction bs as [|b bs IH]; intros s; [reflexivity|].
  cbn [dispatchAll]. rewrite bind_run. unfold after; cbn [events snd].
  rewrite sent_app, map_app.
  change (map MsgBeefy (b :: bs)) with ([MsgBeefy b] ++ map MsgBeefy bs).
  rewrite witnessedPayloads_app.
  apply sublist_app; [apply dispatch_sent_in_order | apply IH].
Qed.

Lemma rangeMsgs_sent_in_order wr ctx (msgs : list Message) s :
  map Payload (sent (events (rangeMsgs wr ctx msgs s)))
  `sublist_of` witnessedPayloads msgs.
Proof.
  destruct (batch_shape msgs) as [(bs & ->) | (bs & n & suf & ->)].
  - rewrite rangeMsgs_beefy. apply dispatchAll_sent_in_order.
  - rewrite rangeMsgs_invalid. cbn [events snd]. rewrite witnessedPayloads_app.
    apply sublist_inserts_r, dispatchAll_sent_in_order.
Qed.

(** X5. The payloads of the records a run sends on the outbound channel are,
    in order, a sublist of the payloads of the witnessed records queued on
    the inbound channel: records are reported in the order they arrived, each
    at most once, and none is made up. *)
Theorem sends_keep_arrival_order wr ctx sched s :
  map Payload (sent (events (writeLoop wr ctx sched s)))
  `sublist_of` witnessedPayloads (concat (queue (messages s))).
Proof.
  revert s. induction sched as [|c sched IH]; intros s; [apply sublist_nil_l|].
  destruct c.
  - cbn [writeLoop]. rewrite onDone_events, sent_app. cbn [sent app].
    replace (sent (discardAll (queue (messages s)))) with (@nil BeefyCommitmentInfo);
      [apply sublist_nil_l|].
    induction (queue (messages s)) as [|x q IHq]; [reflexivity | exact IHq].
  - rewrite writeLoop_step.
    destruct (queue (messages s)) as [|msgs rest] eqn:Eq.
    + specialize (IH s). rewrite Eq in IH. exact IH.
    + cbn zeta. cbn [concat]. rewrite witnessedPayloads_app.
      destruct (result (rangeMsgs wr ctx msgs _)) as [e|].
      * cbn [events snd]. apply sublist_inserts_r, rangeMsgs_sent_in_order.
      * unfold after; cbn [events snd]. rewrite sent_app, map_app.
        apply sublist_app; [apply rangeMsgs_sent_in_order|].
        specialize (IH (final (rangeMsgs wr ctx msgs
          {| world := world s;
             messages := {| queue := rest; closed := closed (messages s) |} |}))).
        rewrite rangeMsgs_messages in IH. exact IH.
Qed.

(** X6. As long as the loop keeps running and the cancellation case does
    not fire, the batches are taken off the inbound channel one per turn and
    in order: after the schedule the queue is the original one without its
    first [length sched] batches, and the channel is closed exactly if it was
    before. *)
Theorem batches_consumed_in_order wr ctx sched s :
  CaseCtxDone ∉ sched ->
  result (writeLoop wr ctx sched s) = Pending ->
  queue (messages (final (writeLoop wr ctx sched s)))
  = drop (length sched) (queue (messages s)) /\
  closed (messages (final (writeLoop wr ctx sched s))) = closed (messages s).
Proof.
  intros Hsched Hrun. split; [|apply writeLoop_closed].
  revert s Hrun. induction sched as [|c sched IH]; intros s Hrun; [reflexivity|].
  apply not_elem_of_cons in Hsched as [Hc Hsched].
  destruct c; [congruence|]. rewrite writeLoop_step in Hrun |- *.
  destruct (queue (messages s)) as [|msgs rest] eqn:Eq.
  - rewrite (IH Hsched s Hrun), Eq, !drop_nil. reflexivity.
  - cbn zeta in *.
    destruct (result (rangeMsgs wr ctx msgs _)) as [e|]; [discriminate Hrun|].
    rewrite result_after in Hrun. unfold after; cbn [final fst snd length drop].
    rewrite (IH Hsched _ Hrun), rangeMsgs_messages. reflexivity.
Qed.

(** X7. When the select takes the cancellation case and the producer never
    closes the inbound channel, the drain does not return: the loop has
    logged the shutdown and discarded every queued batch, and stays blocked
    however the schedule goes on. *)
Theorem drain_blocks_on_open_channel wr ctx pre rest s :
  Forall (fun c => c = CaseMessages) pre ->
  result (writeLoop wr ctx pre s) = Pending ->
  closed (messages s) = false ->
  result (writeLoop wr ctx (pre ++ CaseCtxDone :: rest) s) = Pending /\
  queue (messages (final (writeLoop wr ctx (pre ++ CaseCtxDone :: rest) s))) = [] /\
  events (writeLoop wr ctx (pre ++ CaseCtxDone :: rest) s)
  = events (writeLoop wr ctx pre s)
    ++ LogInfo "Shutting down writer..."
       :: discardAll (queue (messages (final (writeLoop wr ctx pre s)))).
Proof.
  intros Hpre Hrun Hopen.
  rewrite (writeLoop_app wr ctx pre (CaseCtxDone :: rest) s Hpre Hrun).
  pose proof (writeLoop_closed wr ctx pre s) as Hc. rewrite Hopen in Hc.
  cbn [writeLoop]. unfold onDone. rewrite bind_run.
  cbn [emit result final events fst snd after]. rewrite Hc.
  split; [reflexivity|]. split; reflexivity.
Qed.

(** X8. [WriteNewSignatureCommitment] itself does not look at the status of
    the record: called on a record in any status, if the builder, the lookup
    and the call succeed it returns no error and sends the record with the
    status InitialVerificationTxSent and the hash of the transaction. Only
    the switch of the write loop restricts it to witnessed records. *)
Theorem write_new_ignores_status wr ctx b msg contract tx w' s :
  BuildNewSignatureCommitmentMessage b = Ok msg ->
  contracts wr !! LightClientBridgeContractID = Some contract ->
  ContractNewSignatureCommitment contract (transactOpts wr ctx) msg (world s) = (Ok tx, w') ->
  WriteNewSignatureCommitment wr ctx b s
  = (None, {| world := w'; messages := messages s |},
     [LogInfo "Parachain writer received msg";
      CallNewSignatureCommitment contract (transactOpts wr ctx) msg;
      LogInfoTx "New Signature Commitment transaction submitted" (TxHash tx);
      SendBeefy {| Payload := Payload b;
                   Status := InitialVerificationTxSent;
                   InitialVerificationTxHash := TxHash tx |}]).
Proof.
  intros Hbuild Hreg Hcall.
  unfold_writer. rewrite Hbuild, Hreg. simpl. rewrite Hcall. reflexivity.
Qed.

(** X9. After a successful [Start] the lookup of the contract cannot fail:
    either submission, on a record whose message the builder can build, makes
    exactly one contract call, on the binding [Start] constructed and with
    the options of the started writer. *)
Theorem started_writer_reaches_contract wr wr' ctx b s :
  Start wr = (None, wr', true) ->
  exists contract,
    NewContract (HexToAddress (RelayBridgeLightClient (config wr)))
                (GetClient (conn wr)) = Ok contract /\
    (forall msg,
        BuildNewSignatureCommitmentMessage b = Ok msg ->
        submissions (events (WriteNewSignatureCommitment wr' ctx b s))
        = [CallNewSignatureCommitment contract (transactOpts wr' ctx) msg]) /\
    (forall msg,
        BuildCompleteSignatureCommitmentMessage b = Ok msg ->
        submissions (events (WriteCompleteSignatureCommitment wr' ctx b s))
        = [CallCompleteSignatureCommitment contract (transactOpts wr' ctx) msg]).
Proof.
  unfold Start. destruct (NewContract _ _) as [contract|err]; [|discriminate].
  intros [= <-]. exists contract. split; [reflexivity|].
  split; intros msg Hbuild; unfold_writer; rewrite Hbuild; cbn [contracts];
    rewrite lookup_insert_eq; break_dispatch; reflexivity.
Qed.

(** X10. [Start] overwrites: a binding already stored under
    "lightclientbridge" is replaced by the new one, and a second [Start] of
    the started writer gives the same writer again (and hands a second write
    loop to the task group). *)
Theorem start_twice wr wr' :
  Start wr = (None, wr', true) ->
  Start wr' = (None, wr', true) /\
  (forall contract,
      NewContract (HexToAddress (RelayBridgeLightClient (config wr)))
                  (GetClient (conn wr)) = Ok contract ->
      contracts wr' !! LightClientBridgeContractID = Some contract).
Proof.
  unfold Start. destruct (NewContract _ _) as [contract|err] eqn:Hnew; [|discriminate].
  intros [= <-]. cbn [config conn contracts]. rewrite Hnew, insert_insert_eq.
  split; [reflexivity|]. intros c [= <-]. apply lookup_insert_eq.
Qed.

(** X11. [WriteCompleteSignatureCommitment] reports nothing back: for a
    record in any status and whatever the outcome it sends nothing on the
    outbound channel, makes at most one contract call, leaves the inbound
    channel alone, and returns an error exactly when it logs no submitted
    transaction. *)
Theorem write_complete_sends_nothing wr ctx b s :
  sent (events (WriteCompleteSignatureCommitment wr ctx b s)) = [] /\
  length (submissions (events (WriteCompleteSignatureCommitment wr ctx b s))) <= 1 /\
  messages (final (WriteCompleteSignatureCommitment wr ctx b s)) = messages s /\
  (result (WriteCompleteSignatureCommitment wr ctx b s) = None <->
   exists h, LogInfoTx "Complete Signature Commitment transaction submitted" h
             ∈ events (WriteCompleteSignatureCommitment wr ctx b s)).
Proof.
  break_dispatch; (split; [reflexivity|]); (split; [lia|]); (split; [reflexivity|]);
    split; try discriminate; try (intros _; eexists; repeat constructor);
    try reflexivity;
    intros (h & Hin);
    repeat (apply elem_of_cons in Hin as [Hin|Hin]; [discriminate Hin|]);
    apply not_elem_of_nil in Hin; destruct Hin.
Qed.

End WriterFacts.

(** ** The properties on the small chain *)

Import Demo.

Lemma witnessed_success_sends_one_demo :
  Status (record CommitmentWitnessed 5) = CommitmentWitnessed /\
  BuildNewSignatureCommitmentMessage (record CommitmentWitnessed 5) = Ok 5 /\
  contracts started !! LightClientBridgeContractID = Some 8 /\
  sent (events (writeLoop started ctx [CaseMessages]
                  (pushFront [MsgBeefy (record CommitmentWitnessed 5)] (state [] false))))
  = [ {| Payload := 5; Status := InitialVerificationTxSent;
         InitialVerificationTxHash := 1000 |} ].
Proof.
  split; [reflexivity|]. split; [reflexivity|]. split; [reflexivity|].
  exact (proj2 (proj2
    (witnessed_success_sends_one started ctx (record CommitmentWitnessed 5)
       5 8 0 1 (state [] false) eq_refl eq_refl eq_refl eq_refl))).
Defined.

Lemma witnessed_failure_not_advanced_demo :
  (* the builder refuses the payload *)
  sent (events (dispatch started ctx (record CommitmentWitnessed 0) (state [] false))) = [] /\
  (* the registry has no entry *)
  result (WriteNewSignatureCommitment fresh ctx (record CommitmentWitnessed 5) (state [] false))
  = Some "Unknown contract" /\
  (* the contract reverts *)
  last (events (dispatch started ctx (record CommitmentWitnessed 500) (state [] false)))
  = Some (LogError "Error submitting message to ethereum" "execution reverted").
Proof.
  split; [|split].
  - refine (proj1 (proj2
      (witnessed_failure_not_advanced started ctx (record CommitmentWitnessed 0)
         "empty commitment" (state [] false) [] [] eq_refl _))).
    apply InitialBuilderFails. reflexivity.
  - refine (proj1
      (witnessed_failure_not_advanced fresh ctx (record CommitmentWitnessed 5)
         "Unknown contract" (state [] false) [] [] eq_refl _)).
    eapply InitialUnknownContract; reflexivity.
  - refine (proj1 (proj2 (proj2
      (witnessed_failure_not_advanced started ctx (record CommitmentWitnessed 500)
         "execution reverted" (state [] false) [] [] eq_refl _)))).
    eapply InitialBindingFails; reflexivity.
Defined.

Lemma inactive_status_no_action_demo :
  dispatch started ctx (record InitialVerificationTxConfirmed 5) (state [] false)
  = (tt, state [] false, []) /\
  dispatch started ctx (record Completed 5) (state [] false)
  = (tt, state [] false, [LogInfo "Invalid beefy commitment status"]).
Proof.
  split.
  - refine (proj1 (inactive_status_no_action started ctx
      (record InitialVerificationTxConfirmed 5) (state [] false) [] [] _ _));
      discriminate.
  - refine (proj1 (inactive_status_no_action started ctx
      (record Completed 5) (state [] false) [] [] _ _));
      discriminate.
Defined.

Lemma ready_to_complete_no_local_change_demo :
  sent (events (dispatch started ctx (record ReadyToComplete 5) (state [] false))) = [] /\
  sent (events (dispatch started ctx (record ReadyToComplete 500) (state [] false))) = [] /\
  last (events (dispatch started ctx (record ReadyToComplete 500) (state [] false)))
  = Some (LogError "Error submitting message to ethereum" "execution reverted").
Proof.
  split; [|split].
  - exact (proj1 (ready_to_complete_no_local_change started ctx
      (record ReadyToComplete 5) (state [] false) [] eq_refl)).
  - exact (proj1 (ready_to_complete_no_local_change started ctx
      (record ReadyToComplete 500) (state [] false) [] eq_refl)).
  - refine (proj2 (proj1 (proj2 (proj2 (proj2
      (ready_to_complete_no_local_change started ctx
         (record ReadyToComplete 500) (state [] false) [] eq_refl))))
      "execution reverted" _)).
    eapply CompleteBindingFails; reflexivity.
Defined.

(** C4 as the spec words it does not hold: with the registry filled and the
    inbound channel closed and empty, no schedule without the cancellation
    case makes the loop return. *)
Lemma closed_channel_does_not_stop_loop :
  ~ (exists sched,
        (CaseCtxDone ∉ sched) /\
        result (writeLoop started ctx sched (state [] true)) <> Pending).
Proof.
  intros (sched & Hsched & Hres). apply Hres.
  rewrite writeLoop_idle; [reflexivity | exact Hsched | reflexivity].
Qed.

Lemma loop_runs_until_cancelled_demo :
  closed (messages (state [[MsgBeefy (record CommitmentWitnessed 5)]] true)) = true /\
  result (writeLoop started ctx [CaseMessages; CaseMessages; CaseMessages]
            (state [[MsgBeefy (record CommitmentWitnessed 5)]] true))
  = Pending.
Proof.
  split; [reflexivity|].
  refine (proj1 (loop_runs_until_cancelled started ctx
    [CaseMessages; CaseMessages; CaseMessages]
    (state [[MsgBeefy (record CommitmentWitnessed 5)]] true) _ _)).
  - rewrite !not_elem_of_cons. repeat split; try discriminate. apply not_elem_of_nil.
  - repeat constructor.
Defined.

Lemma cancellation_drains_and_returns_demo :
  result (writeLoop started ctx [CaseMessages; CaseCtxDone]
            (state [[MsgBeefy (record CommitmentWitnessed 5)];
                    [MsgBeefy (record ReadyToComplete 6)]; []] true))
  = Returned "context canceled" /\
  events (writeLoop started ctx [CaseMessages; CaseCtxDone]
            (state [[MsgBeefy (record CommitmentWitnessed 5)];
                    [MsgBeefy (record ReadyToComplete 6)]; []] true))
  = events (writeLoop started ctx [CaseMessages]
              (state [[MsgBeefy (record CommitmentWitnessed 5)];
                      [MsgBeefy (record ReadyToComplete 6)]; []] true))
    ++ [LogInfo "Shutting down writer...";
        LogDebug "Discarded message"; LogDebug "Discarded message"].
Proof.
  assert (Hpre : Forall (fun c => c = CaseMessages) [CaseMessages])
    by (repeat constructor).
  assert (Hrun : result (writeLoop started ctx [CaseMessages]
                          (state [[MsgBeefy (record CommitmentWitnessed 5)];
                                  [MsgBeefy (record ReadyToComplete 6)]; []] true))
                 = Pending) by (vm_compute; reflexivity).
  destruct (cancellation_drains_and_returns started ctx [CaseMessages] []
    (state [[MsgBeefy (record CommitmentWitnessed 5)];
            [MsgBeefy (record ReadyToComplete 6)]; []] true)
    Hpre Hrun eq_refl) as (H1 & _ & _ & H2 & _).
  split; [exact H1 | exact H2].
Defined.

(** *** The further properties on the small chain *)

Lemma loop_returns_only_fatal_demo :
  ("Invalid message" = Err ctx /\ CaseCtxDone ∈ [CaseMessages; CaseMessages] /\
   closed (messages (state [[MsgBeefy (record CommitmentWitnessed 0)];
                            [MsgOther "string"]] false)) = true) \/
  ("Invalid message" = "Invalid message" /\
   exists msgs n,
     msgs ∈ queue (messages (state [[MsgBeefy (record CommitmentWitnessed 0)];
                                    [MsgOther "string"]] false)) /\
     MsgOther n ∈ msgs).
Proof.
  assert (Hret : result (writeLoop started ctx [CaseMessages; CaseMessages]
                           (state [[MsgBeefy (record CommitmentWitnessed 0)];
                                   [MsgOther "string"]] false))
                 = Returned "Invalid message") by (vm_compute; reflexivity).
  exact (loop_returns_only_fatal started ctx [CaseMessages; CaseMessages]
           (state [[MsgBeefy (record CommitmentWitnessed 0)];
                   [MsgOther "string"]] false) "Invalid message" Hret).
Defined.

Lemma unregistered_writer_is_inert_demo :
  contracts fresh !! LightClientBridgeContractID = None /\
  sent (events (writeLoop fresh ctx [CaseMessages; CaseMessages]
                  (state [[MsgBeefy (record CommitmentWitnessed 5)];
                          [MsgBeefy (record ReadyToComplete 6)]] false))) = [].
Proof.
  split; [reflexivity|].
  exact (proj1 (proj2
    (unregistered_writer_is_inert fresh ctx [CaseMessages; CaseMessages]
       (state [[MsgBeefy (record CommitmentWitnessed 5)];
               [MsgBeefy (record ReadyToComplete 6)]] false) eq_refl))).
Defined.

Lemma batches_consumed_in_order_demo :
  queue (messages (final (writeLoop started ctx [CaseMessages; CaseMessages]
                            (state [[MsgBeefy (record CommitmentWitnessed 5)]; [];
                                    [MsgBeefy (record ReadyToComplete 6)]] true))))
  = [[MsgBeefy (record ReadyToComplete 6)]].
Proof.
  assert (Hrun : result (writeLoop started ctx [CaseMessages; CaseMessages]
                           (state [[MsgBeefy (record CommitmentWitnessed 5)]; [];
                                   [MsgBeefy (record ReadyToComplete 6)]] true))
                 = Pending) by (vm_compute; reflexivity).
  refine (proj1 (batches_consumed_in_order started ctx [CaseMessages; CaseMessages]
    (state [[MsgBeefy (record CommitmentWitnessed 5)]; [];
            [MsgBeefy (record ReadyToComplete 6)]] true) _ Hrun)).
  rewrite !not_elem_of_cons. repeat split; try discriminate. apply not_elem_of_nil.
Defined.

Lemma drain_blocks_on_open_channel_demo :
  closed (messages (state [[MsgBeefy (record CommitmentWitnessed 5)];
                           [MsgBeefy (record ReadyToComplete 6)]] false)) = false /\
  result (writeLoop started ctx [CaseMessages; CaseCtxDone; CaseMessages]
            (state [[MsgBeefy (record CommitmentWitnessed 5)];
                    [MsgBeefy (record ReadyToComplete 6)]] false))
  = Pending.
Proof.
  split; [reflexivity|].
  assert (Hpre : Forall (fun c => c = CaseMessages) [CaseMessages])
    by (repeat constructor).
  assert (Hrun : result (writeLoop started ctx [CaseMessages]
                           (state [[MsgBeefy (record CommitmentWitnessed 5)];
                                   [MsgBeefy (record ReadyToComplete 6)]] false))
                 = Pending) by (vm_compute; reflexivity).
  exact (proj1 (drain_blocks_on_open_channel started ctx [CaseMessages] [CaseMessages]
    (state [[MsgBeefy (record CommitmentWitnessed 5)];
            [MsgBeefy (record ReadyToComplete 6)]] false) Hpre Hrun eq_refl)).
Defined.

Lemma write_new_ignores_status_demo :
  Status (record ReadyToComplete 5) = ReadyToComplete /\
  WriteNewSignatureCommitment started ctx (record ReadyToComplete 5) (state [] false)
  = (None, {| world := 1; messages := messages (state [] false) |},
     [LogInfo "Parachain writer received msg";
      CallNewSignatureCommitment 8 (transactOpts started ctx) 5;
      LogInfoTx "New Signature Commitment transaction submitted" 1000;
      SendBeefy {| Payload := 5; Status := InitialVerificationTxSent;
                   InitialVerificationTxHash := 1000 |}]).
Proof.
  split; [reflexivity|].
  assert (Hbuild : BuildNewSignatureCommitmentMessage (record ReadyToComplete 5)
                   = Ok (5 : NewSignatureCommitmentMessage)) by reflexivity.
  assert (Hreg : contracts started !! LightClientBridgeContractID
                 = Some (8 : Contract)) by reflexivity.
  assert (Hcall : ContractNewSignatureCommitment (8 : Contract) (transactOpts started ctx)
                    (5 : NewSignatureCommitmentMessage) (world (state [] false))
                  = (Ok (0 : Transaction), (1 : World))) by reflexivity.
  exact (write_new_ignores_status started ctx (record ReadyToComplete 5)
           5 8 0 1 (state [] false) Hbuild Hreg Hcall).
Defined.

Lemma started_writer_reaches_contract_demo :
  exists contract,
    NewContract (HexToAddress (RelayBridgeLightClient (config fresh)))
                (GetClient (conn fresh)) = Ok contract /\
    (forall msg,
        BuildNewSignatureCommitmentMessage (record CommitmentWitnessed 5) = Ok msg ->
        submissions (events (WriteNewSignatureCommitment started ctx
                               (record CommitmentWitnessed 5) (state [] false)))
        = [CallNewSignatureCommitment contract (transactOpts started ctx) msg]) /\
    (forall msg,
        BuildCompleteSignatureCommitmentMessage (record CommitmentWitnessed 5) = Ok msg ->
        submissions (events (WriteCompleteSignatureCommitment started ctx
                               (record CommitmentWitnessed 5) (state [] false)))
        = [CallCompleteSignatureCommitment contract (transactOpts started ctx) msg]).
Proof.
  exact (started_writer_reaches_contract fresh started ctx
           (record CommitmentWitnessed 5) (state [] false) eq_refl).
Defined.

Lemma start_twice_demo :
  Start fresh = (None, started, true) /\ Start started = (None, started, true).
Proof.
  split; [reflexivity|].
  exact (proj1 (start_twice fresh started eq_refl)).
Defined.

(** A batch of a witnessed record, a value of another type and a second
    witnessed record, with one more batch behind it: the first record is
    submitted and sent, and that stays; the second record and the next batch
    are not touched. *)
Lemma invalid_type_keeps_prefix_demo :
  let run := writeLoop started ctx [CaseMessages; CaseMessages]
               (pushFront [MsgBeefy (record CommitmentWitnessed 5); MsgOther "string";
                           MsgBeefy (record CommitmentWitnessed 6)]
                  (state [[MsgBeefy (record CommitmentWitnessed 6)]] false)) in
  result run = Returned "Invalid message" /\
  events run
  = [LogInfo "Parachain writer received msg";
     CallNewSignatureCommitment 8 (transactOpts started ctx) 5;
     LogInfoTx "New Signature Commitment transaction submitted" 1000;
     SendBeefy {| Payload := 5; Status := InitialVerificationTxSent;
                  InitialVerificationTxHash := 1000 |}] /\
  world (final run) = 1 /\
  queue (messages (final run)) = [[MsgBeefy (record CommitmentWitnessed 6)]].
Proof.
  intros run.
  assert (Hst : Status (record CommitmentWitnessed 5) = CommitmentWitnessed)
    by reflexivity.
  assert (Hbuild : BuildNewSignatureCommitmentMessage (record CommitmentWitnessed 5)
                   = Ok (5 : NewSignatureCommitmentMessage)) by reflexivity.
  assert (Hreg : contracts started !! LightClientBridgeContractID
                 = Some (8 : Contract)) by reflexivity.
  destruct (invalid_type_keeps_prefix started ctx [record CommitmentWitnessed 5]
              "string" [MsgBeefy (record CommitmentWitnessed 6)] [CaseMessages]
              (state [[MsgBeefy (record CommitmentWitnessed 6)]] false))
    as (_ & Hrun & _ & Hw & _ & _ & Hq).
  destruct (Hw [] (record CommitmentWitnessed 5) [] 5 8 eq_refl Hst Hbuild Hreg)
    as (_ & _ & Hev & Hfin).
  split; [|split; [|split]].
  - exact (f_equal result Hrun).
  - exact Hev.
  - exact (f_equal world Hfin).
  - exact (f_equal queue Hq).
Defined.
